(** * nucleus: attachment extraction, promotion and cached views

    A shallow embedding of [nucleus/helpers.py] and of the membership and
    promotion parts of [nucleus/identity.py], with the properties the
    natural-language specification states about them. *)

From Stdlib Require Import ZArith List Bool Ascii String Lia Sorted.
From Stdlib Require Import Reals Lra.
From stdpp Require Import gmap list strings.
Import ListNotations.

(** ** Python values used by the sources *)

(** Exceptions the modelled code raises or lets through. *)
Inductive exn :=
| ValueError
| RequestException
| UnauthorizedError
| NotImplementedError
| ExtractionError.

(** A call either returns or raises. *)
Inductive result (A : Type) :=
| Ok (a : A)
| Raise (e : exn).
Arguments Ok {A} a.
Arguments Raise {A} e.

#[global] Instance result_ret : MRet result := @Ok.

#[global] Instance result_bind : MBind result :=
  fun A B f r =>
    match r with
    | Ok a => f a
    | Raise e => Raise e
    end.

(** *** Byte strings ([str]) *)

Module Py.

Definition str := list ascii.

Definition s (x : string) : str := list_ascii_of_string x.

(** Whitespace of [str.rstrip()] and of [\s] on byte strings:
    space, [\t], [\n], [\v], [\f], [\r]. *)
Definition is_space (c : ascii) : bool :=
  let n := nat_of_ascii c in
  ((n =? 32) || (n =? 9) || (n =? 10) || (n =? 11) || (n =? 12) || (n =? 13))%nat.

(** [\w] on byte strings without flags: [a-zA-Z0-9_]. *)
Definition is_word (c : ascii) : bool :=
  let n := nat_of_ascii c in
  (((97 <=? n) && (n <=? 122)) || ((65 <=? n) && (n <=? 90))
   || ((48 <=? n) && (n <=? 57)) || (n =? 95))%nat.

(** [s.startswith(p)] *)
Fixpoint startswith (x p : str) {struct p} : bool :=
  match p, x with
  | [], _ => true
  | _ :: _, [] => false
  | a :: p', b :: x' => Ascii.eqb a b && startswith x' p'
  end.

(** [s.index(sub)]: position of the first occurrence, [ValueError] when
    there is none. *)
Fixpoint find (x sub : str) : option nat :=
  if startswith x sub then Some 0%nat
  else match x with
       | [] => None
       | _ :: x' => option_map S (find x' sub)
       end.

Definition index (x sub : str) : result nat :=
  match find x sub with
  | Some i => Ok i
  | None => Raise ValueError
  end.

(** [s.rfind(c) + 1] for a one-character [c]: one past the last
    occurrence, [0] when there is none ([rfind] gives [-1]). *)
Fixpoint rfind_succ (x : str) (c : ascii) : nat :=
  match x with
  | [] => 0
  | a :: x' =>
      match rfind_succ x' c with
      | 0 => if Ascii.eqb a c then 1 else 0
      | S k => S (S k)
      end
  end.

(** [s.rstrip()] *)
Fixpoint rstrip (x : str) : str :=
  match x with
  | [] => []
  | c :: x' =>
      match rstrip x' with
      | [] => if is_space c then [] else [c]
      | r => c :: r
      end
  end.

(** [s.replace(old, new)] for a non-empty [old]: occurrences are replaced
    left to right without overlap.  [skip] counts the characters of an
    occurrence that are still to be dropped. *)
Fixpoint replace_from (skip : nat) (x old new : str) : str :=
  match x with
  | [] => []
  | c :: x' =>
      match skip with
      | S k => replace_from k x' old new
      | O =>
          if startswith x old
          then new ++ replace_from (length old - 1) x' old new
          else c :: replace_from 0 x' old new
      end
  end.

(** With an empty [old], Python puts [new] before every character and at
    the end. *)
Definition replace (x old new : str) : str :=
  match old with
  | [] => new ++ flat_map (fun c => c :: new) x
  | _ :: _ => replace_from 0 x old new
  end.

(** [s == t] *)
Definition eqb (x y : str) : bool := bool_decide (x = y).

(** Facts about the string operations. *)

Lemma startswith_spec (x p : str) :
  startswith x p = true <-> exists y, x = p ++ y.
Proof.
  revert x. induction p as [| a p IH]; intros x; simpl.
  - split; [intros _; exists x; reflexivity | reflexivity].
  - destruct x as [| b x].
    + split; [discriminate | intros [y Hy]; discriminate].
    + rewrite andb_true_iff, Ascii.eqb_eq, IH. split.
      * intros [-> [y ->]]. exists y. reflexivity.
      * intros [y Hy]. injection Hy as -> ->. eauto.
Qed.

Lemma startswith_app (p y : str) : startswith (p ++ y) p = true.
Proof. apply startswith_spec. exists y. reflexivity. Qed.

Lemma find_occurrence (x t : str) (i : nat) :
  find x t = Some i -> startswith (drop i x) t = true.
Proof.
  revert i. induction x as [| c x IH]; intros i; simpl.
  - destruct (startswith [] t) eqn:E; [| discriminate].
    intros [= <-]. exact E.
  - destruct (startswith (c :: x) t) eqn:E.
    + intros [= <-]. exact E.
    + destruct (find x t) as [k |]; simpl; [| discriminate].
      intros [= <-]. simpl. apply IH. reflexivity.
Qed.

Lemma find_first (x t : str) (i j : nat) :
  find x t = Some i -> j < i -> startswith (drop j x) t = false.
Proof.
  revert i j. induction x as [| c x IH]; intros i j; simpl.
  - destruct (startswith [] t); [intros [= <-]; lia | discriminate].
  - destruct (startswith (c :: x) t) eqn:E.
    + intros [= <-]. lia.
    + destruct (find x t) as [k |] eqn:F; simpl; [| discriminate].
      intros [= <-] Hj. destruct j as [| j]; simpl; [exact E |].
      apply (IH k); [reflexivity | lia].
Qed.

Lemma find_le (x t : str) (j : nat) :
  startswith (drop j x) t = true -> exists i, find x t = Some i /\ i <= j.
Proof.
  revert j. induction x as [| c x IH]; intros j; simpl.
  - rewrite drop_nil. intros ->. exists 0. split; [reflexivity | lia].
  - destruct (startswith (c :: x) t) eqn:E.
    + intros _. exists 0. split; [reflexivity | lia].
    + destruct j as [| j]; simpl.
      * intros H. rewrite H in E. discriminate.
      * intros H. destruct (IH j H) as (i & -> & Hi).
        exists (S i). split; [reflexivity | lia].
Qed.

Lemma rstrip_length_le (x : str) : length (rstrip x) <= length x.
Proof.
  induction x as [| c x IH]; simpl; [lia |].
  destruct (rstrip x); [destruct (is_space c) |]; simpl in *; lia.
Qed.

(** The right-stripped text reaches at least to every non-space
    character. *)
Lemma rstrip_length_ge (a b : str) (c : ascii) :
  is_space c = false -> length a + 1 <= length (rstrip (a ++ c :: b)).
Proof.
  intros Hc. induction a as [| d a IH]; simpl.
  - destruct (rstrip b); [rewrite Hc |]; simpl; lia.
  - destruct (rstrip (a ++ c :: b)) eqn:E; simpl in *; lia.
Qed.

Lemma rstrip_spaces (a w : str) :
  forallb is_space w = true -> rstrip (a ++ w) = rstrip a.
Proof.
  intros Hw. induction a as [| d a IH]; simpl.
  - induction w as [| c w IHw]; simpl in *; [reflexivity |].
    apply andb_true_iff in Hw as [Hc Hw]. rewrite (IHw Hw), Hc. reflexivity.
  - rewrite IH. reflexivity.
Qed.

Lemma rstrip_nonspace_end (a : str) (c : ascii) :
  is_space c = false -> rstrip (a ++ [c]) = a ++ [c].
Proof.
  intros Hc. induction a as [| d a IH]; simpl.
  - rewrite Hc. reflexivity.
  - rewrite IH. destruct (a ++ [c]) eqn:E; [| reflexivity].
    destruct a; discriminate.
Qed.

(** [replace] leaves a prefix alone in which no occurrence starts. *)
Lemma replace_from_prefix (a b old new : str) :
  (forall j, j < length a -> startswith (drop j (a ++ b)) old = false) ->
  replace_from 0 (a ++ b) old new = a ++ replace_from 0 b old new.
Proof.
  induction a as [| c a IH]; intros H; simpl; [reflexivity |].
  pose proof (H 0 ltac:(simpl; lia)) as H0. simpl in H0.
  change (startswith (c :: a ++ b) old) with (startswith ((c :: a) ++ b) old).
  simpl. rewrite H0. f_equal. apply IH.
  intros j Hj. apply (H (S j)). simpl. lia.
Qed.

Lemma replace_from_skip (n : nat) (x old new : str) :
  replace_from n x old new = replace_from 0 (drop n x) old new.
Proof.
  revert n. induction x as [| c x IH]; intros [| n]; simpl; try reflexivity.
  - rewrite IH. reflexivity.
Qed.

(** An occurrence starts with its first character. *)
Lemma startswith_head (a b t : str) (c : ascii) (j : nat) :
  j < length a -> startswith (drop j (a ++ b)) (c :: t) = true -> c ∈ a.
Proof.
  intros Hj H. apply startswith_spec in H as [y Hy].
  apply (list_elem_of_lookup_2 a j).
  rewrite <- (lookup_app_l a b) by exact Hj.
  replace j with (j + 0) by lia. rewrite <- lookup_drop, Hy. reflexivity.
Qed.

(** Nothing is replaced in a text without the first character of
    [old]. *)
Lemma replace_from_absent (x t new : str) (c : ascii) :
  c ∉ x -> replace_from 0 x (c :: t) new = x.
Proof.
  induction x as [| d x IH]; intros Hc; [reflexivity |].
  apply not_elem_of_cons in Hc as [Hd Hx].
  cbn [replace_from startswith].
  destruct (Ascii.eqb c d) eqn:E; [apply Ascii.eqb_eq in E; contradiction |].
  cbn [andb]. rewrite IH by exact Hx. reflexivity.
Qed.

Lemma not_all_spaces (b : str) :
  forallb is_space b = false ->
  exists b1 d b2, b = b1 ++ d :: b2 /\ is_space d = false.
Proof.
  induction b as [| c b IH]; simpl; [discriminate |].
  destruct (is_space c) eqn:Ec; simpl.
  - intros H. destruct (IH H) as (b1 & d & b2 & -> & Hd).
    exists (c :: b1), d, b2. split; [reflexivity | exact Hd].
  - intros _. exists [], c, b. split; [reflexivity | exact Ec].
Qed.

(** When the right-stripped text ends within [a], what follows [a] is
    whitespace. *)
Lemma rstrip_tail_spaces (a b : str) :
  length (rstrip (a ++ b)) <= length a -> forallb is_space b = true.
Proof.
  intros H. destruct (forallb is_space b) eqn:E; [reflexivity |].
  destruct (not_all_spaces b E) as (b1 & d & b2 & -> & Hd).
  pose proof (rstrip_length_ge (a ++ b1) b2 d Hd) as Hge.
  rewrite <- app_assoc in Hge. rewrite length_app in Hge. lia.
Qed.

Lemma is_word_nonspace (c : ascii) : is_word c = true -> is_space c = false.
Proof.
  destruct c as [[] [] [] [] [] [] [] []]; vm_compute; congruence.
Qed.

(** The part of a text after the last [c]: it holds no [c], and it is
    the whole text or stands right after a [c]. *)
Lemma rfind_succ_spec (x : str) (c : ascii) :
  (c ∉ drop (rfind_succ x c) x) /\
  ((rfind_succ x c = 0 /\ (c ∉ x)) \/
   exists a, x = a ++ c :: drop (rfind_succ x c) x /\
             rfind_succ x c = S (length a)).
Proof.
  induction x as [| d x [IHn IH]]; simpl.
  - split; [apply not_elem_of_nil |]. left. split; [reflexivity |].
    apply not_elem_of_nil.
  - destruct IH as [[E Hx] | (a & Hx & E)].
    + rewrite E in *. simpl in IHn. destruct (Ascii.eqb d c) eqn:Ed.
      * apply Ascii.eqb_eq in Ed. subst d. simpl. split; [exact Hx |].
        right. exists []. split; reflexivity.
      * simpl. split.
        -- apply not_elem_of_cons. split; [| exact Hx].
           intros ->. rewrite Ascii.eqb_refl in Ed. discriminate.
        -- left. split; [reflexivity |].
           apply not_elem_of_cons. split; [| exact Hx].
           intros ->. rewrite Ascii.eqb_refl in Ed. discriminate.
    + rewrite E in *. simpl. split; [exact IHn |].
      right. exists (d :: a). simpl. split; [| reflexivity].
      f_equal. exact Hx.
Qed.

End Py.

Import Py.

(** *** Regular expressions ([re.findall]) *)

Module Re.

(** Character classes of the three patterns in [helpers.py]. *)
Inductive cls :=
| Chr (c : ascii)
| NonSpace
| Word.

Definition cls_match (k : cls) (c : ascii) : bool :=
  match k with
  | Chr a => Ascii.eqb a c
  | NonSpace => negb (is_space c)
  | Word => is_word c
  end.

(** The fragment of the pattern language the sources use: sequences,
    an optional part, greedy bounded repetition of a class and one
    capturing group. *)
Inductive re :=
| Eps
| One (k : cls)
| Seq (a b : re)
| Opt (a : re)
| Rep (k : cls) (lo : nat) (hi : option nat)
| Grp (a : re).

Definition more (hi : option nat) : bool :=
  match hi with
  | Some O => false
  | _ => true
  end.

(** Greedy repetition with backtracking: the longest run is tried first. *)
Fixpoint rep {T : Type} (k : cls) (lo : nat) (hi : option nat) (x : str)
    (cont : str -> option T) : option T :=
  let stop := if (lo =? 0)%nat then cont x else None in
  match x with
  | c :: x' =>
      if cls_match k c && more hi
      then match rep k (pred lo) (option_map pred hi) x' cont with
           | Some r => Some r
           | None => stop
           end
      else stop
  | [] => stop
  end.

(** Backtracking matcher in continuation style; the second component
    carried along is the text of group 1. *)
Fixpoint go {T : Type} (r : re) (x : str) (g : option str)
    (cont : str -> option str -> option T) : option T :=
  match r with
  | Eps => cont x g
  | One k =>
      match x with
      | c :: x' => if cls_match k c then cont x' g else None
      | [] => None
      end
  | Seq a b => go a x g (fun x' g' => go b x' g' cont)
  | Opt a =>
      match go a x g cont with
      | Some v => Some v
      | None => cont x g
      end
  | Rep k lo hi => rep k lo hi x (fun x' => cont x' g)
  | Grp a =>
      go a x g (fun x' _ => cont x' (Some (firstn (length x - length x') x)))
  end.

(** A match of [r] at the start of [x]: the matched text and group 1. *)
Definition match_here (r : re) (x : str) : option (str * option str) :=
  go r x None (fun x' g => Some (firstn (length x - length x') x, g)).

(** [re.findall(r, x)] for a pattern that does not match the empty
    string: matches are taken left to right without overlap, and the
    text of group 1 is reported when the pattern has a group. *)
Fixpoint findall_from (skip : nat) (r : re) (x : str) : list str :=
  match x with
  | [] => []
  | _ :: x' =>
      match skip with
      | S n => findall_from n r x'
      | O =>
          match match_here r x with
          | Some (whole, g) =>
              match g with Some t => t | None => whole end
              :: findall_from (length whole - 1) r x'
          | None => findall_from 0 r x'
          end
      end
  end.

Definition findall (r : re) (x : str) : list str := findall_from 0 r x.

Fixpoint lit (x : str) : re :=
  match x with
  | [] => Eps
  | c :: x' => Seq (One (Chr c)) (lit x')
  end.

(** Facts about the matcher. *)

(** Length of the run a greedy repetition takes when nothing after it
    can fail. *)
Fixpoint span (k : cls) (hi : option nat) (x : str) : nat :=
  match x with
  | c :: x' =>
      if cls_match k c && more hi
      then S (span k (option_map pred hi) x')
      else 0
  | [] => 0
  end.

Lemma span_le (k : cls) (hi : option nat) (x : str) :
  span k hi x <= length x.
Proof.
  revert hi. induction x as [| c x IH]; intros hi; simpl; [lia |].
  destruct (cls_match k c && more hi); [specialize (IH (option_map pred hi)) |]; lia.
Qed.

Lemma span_all (k : cls) (hi : option nat) (x : str) :
  forallb (cls_match k) (take (span k hi x) x) = true.
Proof.
  revert hi. induction x as [| c x IH]; intros hi; simpl; [reflexivity |].
  destruct (cls_match k c) eqn:E; simpl; [| reflexivity].
  destruct (more hi); simpl; [| reflexivity].
  rewrite E. apply IH.
Qed.

Lemma rep_total {T : Type} (k : cls) (lo : nat) (hi : option nat) (x : str)
    (f : str -> T) :
  rep k lo hi x (fun y => Some (f y)) =
  if (lo <=? span k hi x)%nat then Some (f (drop (span k hi x) x)) else None.
Proof.
  revert lo hi. induction x as [| c x IH]; intros lo hi; simpl.
  - destruct lo; reflexivity.
  - destruct (cls_match k c && more hi); simpl.
    + rewrite IH. destruct lo as [| lo]; simpl.
      * reflexivity.
      * destruct (lo <=? span k (option_map pred hi) x)%nat; reflexivity.
    + destruct lo; reflexivity.
Qed.

(** A run of at most [hi] characters of the class, followed by none of
    the class, is taken whole. *)
Lemma span_run (k : cls) (hi : nat) (x y : str) :
  forallb (cls_match k) x = true -> length x <= hi ->
  match y with c :: _ => cls_match k c = false | [] => True end ->
  span k (Some hi) (x ++ y) = length x.
Proof.
  revert hi. induction x as [| c x IH]; intros hi Hx Hlen Hy; simpl.
  - destruct y as [| c y]; [reflexivity |]. simpl. rewrite Hy. reflexivity.
  - simpl in Hx, Hlen. apply andb_true_iff in Hx as [Hc Hx]. rewrite Hc.
    destruct hi as [| hi]; [lia |]. simpl.
    rewrite (IH hi) by (assumption || lia). reflexivity.
Qed.

Lemma findall_from_skip (n : nat) (r : re) (x : str) :
  findall_from n r x = findall_from 0 r (drop n x).
Proof.
  revert n. induction x as [| c x IH]; intros [| n]; simpl; try reflexivity.
  rewrite IH. destruct (drop n x); reflexivity.
Qed.

Lemma span_bound (k : cls) (hi : nat) (x : str) : span k (Some hi) x <= hi.
Proof.
  revert hi. induction x as [| c x IH]; intros hi; simpl; [lia |].
  destruct (cls_match k c); simpl; [| lia].
  destruct hi as [| hi]; simpl; [lia |].
  specialize (IH hi). lia.
Qed.

(** A repetition fails when what follows fails on every rest of the
    text. *)
Lemma rep_fail {T : Type} (k : cls) (lo : nat) (hi : option nat) (x : str)
    (cont : str -> option T) :
  (forall y, y `suffix_of` x -> cont y = None) -> rep k lo hi x cont = None.
Proof.
  revert lo hi. induction x as [| c x IH]; intros lo hi Hcont; simpl.
  - rewrite Hcont by reflexivity. destruct (lo =? 0)%nat; reflexivity.
  - rewrite IH by (intros y Hy; apply Hcont, suffix_cons_r, Hy).
    rewrite Hcont by reflexivity.
    destruct (cls_match k c && more hi), (lo =? 0)%nat; reflexivity.
Qed.

(** So does every pattern. *)
Lemma go_fail {T : Type} (r : re) (x : str) (g : option str)
    (cont : str -> option str -> option T) :
  (forall y g', y `suffix_of` x -> cont y g' = None) -> go r x g cont = None.
Proof.
  revert x g cont.
  induction r as [| k | a IHa b IHb | a IHa | k lo hi | a IHa];
    intros x g cont Hcont; cbn [go].
  - apply Hcont. reflexivity.
  - destruct x as [| c x]; [reflexivity |].
    destruct (cls_match k c); [| reflexivity].
    apply Hcont, suffix_cons_r. reflexivity.
  - apply IHa. intros y g' Hy. apply IHb.
    intros z g'' Hz. apply Hcont. etrans; eassumption.
  - rewrite IHa by exact Hcont. apply Hcont. reflexivity.
  - apply rep_fail. intros y Hy. apply Hcont, Hy.
  - apply IHa. intros y g' Hy. apply Hcont, Hy.
Qed.

(** Patterns whose classes match no whitespace, and the least length of
    their matches. *)
Definition cls_nonspace (k : cls) : bool :=
  match k with
  | Chr c => negb (is_space c)
  | NonSpace | Word => true
  end.

Fixpoint re_nonspace (r : re) : bool :=
  match r with
  | Eps => true
  | One k | Rep k _ _ => cls_nonspace k
  | Seq a b => re_nonspace a && re_nonspace b
  | Opt a | Grp a => re_nonspace a
  end.

Fixpoint min_len (r : re) : nat :=
  match r with
  | Eps | Opt _ => 0
  | One _ => 1
  | Seq a b => min_len a + min_len b
  | Rep _ lo _ => lo
  | Grp a => min_len a
  end.

Lemma cls_nonspace_match (k : cls) (c : ascii) :
  cls_nonspace k = true -> cls_match k c = true -> is_space c = false.
Proof.
  destruct k as [a | |]; simpl.
  - intros Ha Hc. apply Ascii.eqb_eq in Hc. subst c.
    destruct (is_space a); [discriminate | reflexivity].
  - intros _ Hc. destruct (is_space c); [discriminate | reflexivity].
  - intros _. apply is_word_nonspace.
Qed.

(** A repetition that succeeds took a run of the class and went on with
    the rest. *)
Lemma rep_sound {T : Type} (k : cls) (lo : nat) (hi : option nat) (x : str)
    (cont : str -> option T) (v : T) :
  rep k lo hi x cont = Some v ->
  exists m y, x = m ++ y /\ forallb (cls_match k) m = true /\
              lo <= length m /\ cont y = Some v.
Proof.
  revert lo hi. induction x as [| c x IH]; intros lo hi; simpl.
  - destruct lo; simpl; [| discriminate].
    intros H. exists [], []. split_and!; try done.
  - assert (Hstop : (if (lo =? 0)%nat then cont (c :: x) else None) = Some v ->
                    exists m y, c :: x = m ++ y /\
                                forallb (cls_match k) m = true /\
                                lo <= length m /\ cont y = Some v).
    { destruct lo; simpl; [| discriminate].
      intros H. exists [], (c :: x). split_and!; try done. }
    destruct (cls_match k c) eqn:Ec; simpl; [| exact Hstop].
    destruct (more hi); [| exact Hstop].
    destruct (rep k (pred lo) (option_map pred hi) x cont) as [v' |] eqn:E;
      [| exact Hstop].
    intros [= ->]. destruct (IH _ _ E) as (m & y & -> & Hm & Hlo & Hy).
    exists (c :: m), y. simpl. rewrite Ec, Hm. split_and!; try done. lia.
Qed.

(** So did every pattern that succeeds. *)
Lemma go_sound {T : Type} (r : re) (x : str) (g : option str)
    (cont : str -> option str -> option T) (v : T) :
  re_nonspace r = true ->
  go r x g cont = Some v ->
  exists m y g', x = m ++ y /\ forallb (fun c => negb (is_space c)) m = true /\
                 min_len r <= length m /\ cont y g' = Some v.
Proof.
  revert x g cont.
  induction r as [| k | a IHa b IHb | a IHa | k lo hi | a IHa];
    intros x g cont Hr; cbn [go min_len]; simpl in Hr.
  - intros H. exists [], x, g. split_and!; try done.
  - destruct x as [| c x]; [discriminate |].
    destruct (cls_match k c) eqn:Ec; [| discriminate].
    intros H. exists [c], x, g. simpl.
    rewrite (cls_nonspace_match k c Hr Ec). split_and!; try done.
  - apply andb_true_iff in Hr as [Ha Hb]. intros H.
    destruct (IHa _ _ _ Ha H) as (m1 & y1 & g1 & -> & Hm1 & Hl1 & H1).
    destruct (IHb _ _ _ Hb H1) as (m2 & y2 & g2 & -> & Hm2 & Hl2 & H2).
    exists (m1 ++ m2), y2, g2.
    rewrite forallb_app, Hm1, Hm2, length_app, <- app_assoc.
    split_and!; try done. lia.
  - destruct (go a x g cont) as [v' |] eqn:E.
    + intros [= ->].
      destruct (IHa _ _ _ Hr E) as (m & y & g' & -> & Hm & _ & H1).
      exists m, y, g'. split_and!; try done. lia.
    + intros H. exists [], x, g. split_and!; try done.
  - intros H. destruct (rep_sound _ _ _ _ _ _ H) as (m & y & -> & Hm & Hlo & Hy).
    exists m, y, g. split_and!; try done.
    rewrite forallb_forall in Hm. apply forallb_forall. intros c Hc.
    rewrite (cls_nonspace_match k c Hr (Hm c Hc)). reflexivity.
  - intros H. destruct (IHa _ _ _ Hr H) as (m & y & g' & -> & Hm & Hl & H1).
    exists m, y, (Some (firstn (length (m ++ y) - length y) (m ++ y))).
    split_and!; try done.
Qed.

(** A match of a pattern in one group: the group is the whole match, a
    prefix of the text without whitespace. *)
Lemma match_here_grp (a : re) (x whole : str) (g : option str) :
  re_nonspace a = true ->
  match_here (Grp a) x = Some (whole, g) ->
  g = Some whole /\ forallb (fun c => negb (is_space c)) whole = true /\
  min_len a <= length whole /\ exists y, x = whole ++ y.
Proof.
  intros Ha. unfold match_here. cbn [go]. intros H.
  destruct (go_sound _ _ _ _ _ Ha H) as (m & y & g' & -> & Hm & Hl & Hv).
  rewrite length_app in Hv.
  replace (length m + length y - length y) with (length m) in Hv by lia.
  rewrite take_app_length in Hv. injection Hv as <- <-.
  split_and!; try done. exists y. reflexivity.
Qed.

End Re.

(** ** Attachment extraction ([nucleus/helpers.py]) *)

Module Helpers.

Import Re.

(** [expr = "#([\S]{1,32})"] *)
Definition tag_expr : re :=
  Seq (One (Chr "#")) (Grp (Rep NonSpace 1 (Some 32%nat))).

(** [expr = "@([\S]{3,80})"] *)
Definition mention_expr : re :=
  Seq (One (Chr "@")) (Grp (Rep NonSpace 3 (Some 80%nat))).

(** The pattern of [find_links], one group around all of it: an optional
    [https?://], then [\S+], a dot, [\w{2,3}] and a final run of [\S]. *)
Definition link_expr : re :=
  Grp (Seq (Opt (Seq (lit (s "http"))
                     (Seq (Opt (One (Chr "s"))) (lit (s "://")))))
      (Seq (Rep NonSpace 1 None)
      (Seq (One (Chr "."))
      (Seq (Rep Word 2 (Some 3%nat))
           (Rep NonSpace 0 None))))).

(** *** [find_tags] *)

(** Body of the loop over [rv]: the tag is cut out when its first
    occurrence ends at the end of the right-stripped text. *)
Definition strip_tag (text_new tag : str) : result str :=
  i ← index text_new tag;
  if (i + length tag =? length (rstrip text_new))%nat
  then Ok (replace text_new ("#"%char :: tag) [])
  else Ok text_new.

Fixpoint strip_tags (rv : list str) (text_new : str) : result str :=
  match rv with
  | [] => Ok text_new
  | tag :: rv' => t ← strip_tag text_new tag; strip_tags rv' t
  end.

Definition find_tags (text : str) : result (list str * str) :=
  let rv := rev (findall tag_expr text) in
  text_new ← strip_tags rv text;
  Ok (if (0 <? length text_new)%nat then (rv, text_new) else (rv, text)).

(** *** [find_links] *)

(** What the code reads of a [requests] response. *)
Record response := Response {
  status_code : Z;
  headers : list (str * str);
  url : str
}.

(** What a HEAD request comes back with. *)
Inductive outcome :=
| Responds (res : response)
| Fails (e : exn).

(** [except (requests.exceptions.RequestException, ValueError)] *)
Definition caught (e : exn) : bool :=
  match e with
  | RequestException | ValueError => true
  | _ => false
  end.

(** Truth value of a response: [Response.ok], no 4xx or 5xx status. *)
Definition truthy (res : response) : bool :=
  negb ((400 <=? status_code res)%Z && (status_code res <? 600)%Z).

(** The locals of [find_links], and the HEAD requests made so far with
    what came back. *)
Record links_state := LinksState {
  rv : list response;
  rejects : gset str;
  text : str;
  requests : list (str * outcome)
}.

Definition schemed (c : str) : str :=
  if negb (Py.eqb (firstn 4 c) (s "http")) then s "http://" ++ c else c.

Section Network.

(** [requests.head(url, timeout=3.0)]: the answer may depend on the
    requests made before. *)
Variable head : list (str * outcome) -> str -> outcome.

(** Body of the loop over the reversed candidates. *)
Definition check_candidate (st : links_state) (c : str) : result links_state :=
  let c_schemed := schemed c in
  if bool_decide (c_schemed ∈ rejects st) then Ok st
  else
    let out := head (requests st) c_schemed in
    let log := requests st ++ [(c_schemed, out)] in
    match out with
    | Fails e =>
        if caught e
        then Ok (LinksState (rv st) ({[c_schemed]} ∪ rejects st) (text st) log)
        else Raise e
    | Responds res =>
        if truthy res && (status_code res <? 400)%Z
        then
          i ← index (text st) c;
          Ok (LinksState (rv st ++ [res]) (rejects st)
                (if (i + length c =? length (rstrip (text st)))%nat
                 then replace (text st) c []
                 else text st)
                log)
        else Ok (LinksState (rv st) (rejects st) (text st) log)
    end.

Fixpoint check_candidates (st : links_state) (cs : list str)
  : result links_state :=
  match cs with
  | [] => Ok st
  | c :: cs' => st' ← check_candidate st c; check_candidates st' cs'
  end.

(** [find_links(text)], started with the requests already made. *)
Definition find_links_state (log : list (str * outcome)) (text : str)
  : result links_state :=
  let candidates := findall link_expr text in
  check_candidates (LinksState [] ∅ text log) (rev candidates).

Definition find_links (log : list (str * outcome)) (text : str)
  : result (list response * str) :=
  st ← find_links_state log text; Ok (rv st, Helpers.text st).

(** *** [find_mentions] *)

(** [Identity.query.filter_by(username=...).first()]: the identity
    with that username, if there is one. *)
Variable identity_by_username : str -> option nat.

Definition find_mentions (text : str) : list (str * nat) :=
  omap (fun mention_text =>
          match identity_by_username mention_text with
          | Some ident => Some (mention_text, ident)
          | None => None
          end)
       (findall mention_expr text).

(** *** [process_attachments] *)

Inductive percept_kind :=
| TagPercept
| Mention
| LinkPercept
| LinkedPicturePercept.

#[global] Instance percept_kind_eq_dec : EqDecision percept_kind.
Proof. solve_decision. Defined.

(** A percept object; the fields the extraction sets. *)
Record percept := Percept {
  kind : percept_kind;
  title : str;
  percept_url : str;
  identity : option nat;
  mention_text : str
}.

Definition set_title (t : str) (p : percept) : percept :=
  Percept (kind p) t (percept_url p) (identity p) (mention_text p).

(** Percept objects live in a heap; an object is its position there, so
    two references are the same instance exactly when they are equal. *)
Definition heap := list percept.

(** Calling a class: a new object. *)
Definition new (p : percept) (h : heap) : nat * heap :=
  (length h, h ++ [p]).

(** Modelled from the spec: [LinkPercept.get_or_create] and
    [LinkedPicturePercept.get_or_create] are defined in [content.py],
    which is not among the sources.  The spec gives their contract: a
    get-or-create keyed on the canonical value, here the URL, which
    fetches the stored percept with that value and inserts one only when
    there is none.  The boolean tells a newly made percept, which is what
    [inspect(linkpercept).transient] asks. *)
Definition get_or_create (k : percept_kind) (u : str) (h : heap)
  : nat * bool * heap :=
  match list_find (fun p => kind p = k /\ percept_url p = u) h with
  | Some (i, _) => (i, false, h)
  | None => (length h, true, h ++ [Percept k [] u None []])
  end.

(** What Goose's [extract] gives for a page. *)
Record page := Page {
  page_title : str;
  cleaned_text : str
}.

(** [g.extract(url=...)]: fetches the page, and fails when it cannot. *)
Variable extract : str -> result page.

(** [link.headers["content-type"]], when the header is there. *)
Fixpoint header (hs : list (str * str)) (name : str) : option str :=
  match hs with
  | [] => None
  | (k, v) :: hs' => if Py.eqb k name then Some v else header hs' name
  end.

Definition is_image (link : response) : bool :=
  match header (headers link) (s "content-type") with
  | Some v => Py.eqb (firstn 5 v) (s "image")
  | None => false
  end.

(** The locals [text] and [percepts] with the heap. *)
Record attachments := Attachments {
  message : str;
  percepts : gset nat;
  objects : heap
}.

(** Body of the loop over the accepted links. *)
Definition attach_link (a : attachments) (link : response)
  : result attachments :=
  if is_image link then
    let '(linkpercept, _, h) :=
      get_or_create LinkedPicturePercept (url link) (objects a) in
    let text :=
      if (length (message a) =? 0)%nat
      then skipn (rfind_succ (url link) "/") (url link)
      else message a in
    Ok (Attachments text ({[linkpercept]} ∪ percepts a) h)
  else
    let '(linkpercept, transient, h) :=
      get_or_create LinkPercept (url link) (objects a) in
    page ← extract (url link);
    let h' :=
      if transient
      then alter (set_title (page_title page)) linkpercept h
      else h in
    let text :=
      if (length (message a) =? 0)%nat then page_title page else message a in
    Ok (Attachments text ({[linkpercept]} ∪ percepts a) h').

Fixpoint attach_links (a : attachments) (links : list response)
  : result attachments :=
  match links with
  | [] => Ok a
  | link :: links' => a' ← attach_link a link; attach_links a' links'
  end.

(** [percepts.add(content.TagPercept(title=tag))] for every tag. *)
Fixpoint attach_tags (a : attachments) (tags : list str) : attachments :=
  match tags with
  | [] => a
  | tag :: tags' =>
      let '(tagpercept, h) := new (Percept TagPercept tag [] None []) (objects a) in
      attach_tags (Attachments (message a) ({[tagpercept]} ∪ percepts a) h) tags'
  end.

(** [percepts.add(content.Mention(identity=ident, text=mention_text))] *)
Fixpoint attach_mentions (a : attachments) (mentions : list (str * nat))
  : attachments :=
  match mentions with
  | [] => a
  | (mention_text, ident) :: mentions' =>
      let '(mention, h) :=
        new (Percept Mention [] [] (Some ident) mention_text) (objects a) in
      attach_mentions (Attachments (message a) ({[mention]} ∪ percepts a) h)
        mentions'
  end.

(** [process_attachments(text)] on the heap [h], after the requests
    [log]; the result carries the message, the set of percepts and the
    heap as the call leaves it. *)
Definition process_attachments (h : heap) (log : list (str * outcome))
    (text : str) : result attachments :=
  '(tags, text) ← find_tags text;
  let a := attach_tags (Attachments text ∅ h) tags in
  let a := attach_mentions a (find_mentions text) in
  '(links, text) ← find_links log text;
  attach_links (Attachments text (percepts a) (objects a)) links.

End Network.

(** *** Facts about [find_tags] *)

Definition nonspace (t : str) : bool := forallb (cls_match NonSpace) t.

(** What the tag pattern matches at the start of a text. *)
Lemma match_here_tag (c : ascii) (x : str) :
  match_here tag_expr (c :: x) =
  let n := span NonSpace (Some 32%nat) x in
  if Ascii.eqb "#" c && (1 <=? n)%nat
  then Some (c :: take n x, Some (take n x))
  else None.
Proof.
  unfold match_here, tag_expr. cbn [go cls_match].
  destruct (Ascii.eqb "#" c); cbn [andb]; [| reflexivity].
  rewrite rep_total.
  pose proof (span_le NonSpace (Some 32%nat) x) as Hle.
  destruct (1 <=? span NonSpace (Some 32%nat) x)%nat; [| reflexivity].
  rewrite length_drop.
  replace (length (c :: x) - (length x - span NonSpace (Some 32%nat) x))
    with (S (span NonSpace (Some 32%nat) x)) by (simpl; lia).
  replace (length x - (length x - span NonSpace (Some 32%nat) x))
    with (span NonSpace (Some 32%nat) x) by lia.
  reflexivity.
Qed.

Lemma findall_tag_cons (c : ascii) (x : str) :
  findall tag_expr (c :: x) =
  let n := span NonSpace (Some 32%nat) x in
  if Ascii.eqb "#" c && (1 <=? n)%nat
  then take n x :: findall tag_expr (drop n x)
  else findall tag_expr x.
Proof.
  unfold findall. cbn [findall_from]. rewrite match_here_tag. cbv zeta.
  pose proof (span_le NonSpace (Some 32%nat) x) as Hle.
  destruct (Ascii.eqb "#" c && (1 <=? span NonSpace (Some 32%nat) x)%nat);
    [| reflexivity].
  rewrite findall_from_skip. cbn [length]. rewrite length_take.
  replace (S (span NonSpace (Some 32%nat) x `min` length x) - 1)
    with (span NonSpace (Some 32%nat) x) by lia.
  reflexivity.
Qed.

(** A text with its tags: every tag stands after a [#], is not empty and
    holds no whitespace; what lies between and after them is free. *)
Inductive tag_split : str -> list str -> Prop :=
| tag_split_nil (x : str) : tag_split x []
| tag_split_cons (g t x : str) (ts : list str) :
    t <> [] -> nonspace t = true -> tag_split x ts ->
    tag_split (g ++ "#"%char :: t ++ x) (t :: ts).

Lemma tag_split_extend (c : ascii) (x : str) (ts : list str) :
  tag_split x ts -> tag_split (c :: x) ts.
Proof.
  intros H. destruct H as [x | g t x ts Ht Hns Hx].
  - constructor.
  - apply (tag_split_cons (c :: g)); assumption.
Qed.

Lemma findall_tag_split (x : str) : tag_split x (findall tag_expr x).
Proof.
  remember (length x) as n eqn:Hn.
  revert x Hn. induction n as [n IH] using lt_wf_ind. intros x Hn.
  destruct x as [| c x]; [constructor |].
  rewrite findall_tag_cons. cbv zeta.
  pose proof (span_le NonSpace (Some 32%nat) x) as Hle.
  pose proof (span_all NonSpace (Some 32%nat) x) as Hall.
  destruct (Ascii.eqb "#" c) eqn:Ec; cbn [andb].
  - destruct (1 <=? span NonSpace (Some 32%nat) x)%nat eqn:E1.
    + apply Nat.leb_le in E1. apply Ascii.eqb_eq in Ec. subst c.
      rewrite <- (take_drop (span NonSpace (Some 32%nat) x) x) at 1.
      apply (tag_split_cons []).
      * intros E. apply (f_equal length) in E. rewrite length_take in E.
        simpl in E. lia.
      * exact Hall.
      * eapply IH; [| reflexivity]. subst n. simpl. rewrite length_drop. lia.
    + apply tag_split_extend. eapply IH; [| reflexivity]. subst n. simpl. lia.
  - apply tag_split_extend. eapply IH; [| reflexivity]. subst n. simpl. lia.
Qed.

Lemma startswith_drop_S (x t : str) (c : ascii) (j : nat) :
  startswith (drop j x) (c :: t) = true -> startswith (drop (S j) x) t = true.
Proof.
  intros H. apply startswith_spec in H as [y Hy].
  apply startswith_spec. exists y.
  replace (S j) with (j + 1) by lia. rewrite <- drop_drop, Hy. reflexivity.
Qed.

(** One turn of the loop keeps all the text before the tag's [#]. *)
Lemma strip_tag_keeps_prefix (a t r : str) :
  t <> [] -> nonspace t = true ->
  exists r', strip_tag (a ++ "#"%char :: t ++ r) t = Ok (a ++ r').
Proof.
  intros Ht Hns. unfold strip_tag, index.
  set (x := a ++ "#"%char :: t ++ r).
  assert (Hocc : startswith (drop (length a + 1) x) t = true).
  { subst x.
    replace (a ++ "#"%char :: t ++ r) with ((a ++ ["#"%char]) ++ t ++ r)
      by (rewrite <- app_assoc; reflexivity).
    rewrite drop_app_length'; [apply startswith_app |].
    rewrite length_app. simpl. lia. }
  destruct (find_le _ _ _ Hocc) as (i & Hfind & Hi). rewrite Hfind. simpl.
  destruct (i + length t =? length (rstrip x)) eqn:E.
  - apply Nat.eqb_eq in E.
    destruct (exists_last Ht) as (t0 & c & ->).
    assert (Hc : is_space c = false).
    { unfold nonspace in Hns. rewrite forallb_app in Hns.
      apply andb_true_iff in Hns as [_ Hc]. simpl in Hc.
      destruct (is_space c); [discriminate | reflexivity]. }
    assert (Hge : length (a ++ "#"%char :: t0) + 1 <= length (rstrip x)).
    { subst x. replace (a ++ "#"%char :: (t0 ++ [c]) ++ r)
        with ((a ++ "#"%char :: t0) ++ c :: r)
        by (rewrite <- ?app_assoc; simpl; rewrite <- ?app_assoc; reflexivity).
      apply rstrip_length_ge. exact Hc. }
    rewrite ?length_app in Hge, E. simpl in Hge, E.
    assert (Hieq : i = length a + 1) by lia.
    exists (replace_from 0 ("#"%char :: (t0 ++ [c]) ++ r)
              ("#"%char :: t0 ++ [c]) []).
    f_equal. unfold replace. subst x. apply replace_from_prefix.
    intros j Hj.
    destruct (startswith (drop j (a ++ "#"%char :: (t0 ++ [c]) ++ r))
                ("#"%char :: t0 ++ [c])) eqn:Es; [| reflexivity].
    apply startswith_drop_S in Es.
    rewrite (find_first _ _ _ (S j) Hfind) in Es; [discriminate | lia].
  - exists ("#"%char :: t ++ r). reflexivity.
Qed.

Lemma strip_tags_app (l1 l2 : list str) (x : str) :
  strip_tags (l1 ++ l2) x = (y ← strip_tags l1 x; strip_tags l2 y).
Proof.
  revert x. induction l1 as [| t l1 IH]; intros x; simpl; [reflexivity |].
  destruct (strip_tag x t) as [y | e]; simpl; [apply IH | reflexivity].
Qed.

(** The loop of [find_tags] never fails: when a tag's turn comes, the
    text still holds everything up to that tag. *)
Lemma strip_tags_keeps_prefix (x : str) (ts : list str) :
  tag_split x ts ->
  forall p, exists r, strip_tags (rev ts) (p ++ x) = Ok (p ++ r).
Proof.
  induction 1 as [x | g t x ts Ht Hns Hx IH]; intros p; simpl.
  - exists x. reflexivity.
  - rewrite strip_tags_app.
    destruct (IH (p ++ g ++ "#"%char :: t)) as [r Hr].
    replace (p ++ g ++ "#"%char :: t ++ x)
      with ((p ++ g ++ "#"%char :: t) ++ x)
      by (rewrite <- ?app_assoc; simpl; rewrite <- ?app_assoc; reflexivity).
    rewrite Hr. simpl.
    replace ((p ++ g ++ "#"%char :: t) ++ r)
      with ((p ++ g) ++ "#"%char :: t ++ r)
      by (rewrite <- ?app_assoc; simpl; rewrite <- ?app_assoc; reflexivity).
    destruct (strip_tag_keeps_prefix (p ++ g) t r Ht Hns) as [r' Hr'].
    unfold mbind, result_bind. rewrite Hr'.
    exists (g ++ r'). rewrite <- app_assoc. reflexivity.
Qed.

Lemma find_tags_returns (text : str) :
  exists t, find_tags text = Ok (rev (findall tag_expr text), t).
Proof.
  unfold find_tags.
  destruct (strip_tags_keeps_prefix text _ (findall_tag_split text) [])
    as [r Hr].
  simpl in Hr. rewrite Hr. simpl.
  destruct (0 <? length r); eauto.
Qed.

(** C4, as the claim states it, fails: on ["#a #b"] the tags come back
    as [b], [a], while their order in the text is [a], [b]. *)
Lemma find_tags_not_textual_order :
  find_tags (s "#a #b") = Ok ([s "b"; s "a"], s " ") /\
  findall tag_expr (s "#a #b") = [s "a"; s "b"].
Proof. split; vm_compute; reflexivity. Qed.

(** C4, amended: for every text [find_tags] returns, and the tag list it
    returns holds all matches of the tag pattern in reverse textual
    order, repeated tags included. *)
Theorem find_tags_reverse_order (text : str) :
  exists tags t,
    find_tags text = Ok (tags, t) /\ tags = rev (findall tag_expr text).
Proof.
  destruct (find_tags_returns text) as [t Ht].
  exists (rev (findall tag_expr text)), t. split; [exact Ht | reflexivity].
Qed.

(** C5 at the failing input ["x #x"]: the trailing tag is reported, but
    [index] finds the [x] at the start of the text, so nothing is
    stripped although [#x] stands at the end and the text would not
    become empty. *)
Theorem find_tags_trailing_tag_kept :
  find_tags (s "x #x") = Ok ([s "x"], s "x #x").
Proof. vm_compute. reflexivity. Qed.

(** The tags of a text without [#], and after a prefix without [#]. *)
Lemma findall_tag_no_hash (y : str) : "#"%char ∉ y -> findall tag_expr y = [].
Proof.
  induction y as [| c y IH]; intros Hy; [reflexivity |].
  apply not_elem_of_cons in Hy as [Hc Hy].
  rewrite findall_tag_cons. cbv zeta.
  destruct (Ascii.eqb "#" c) eqn:E; [apply Ascii.eqb_eq in E; congruence |].
  cbn [andb]. apply IH, Hy.
Qed.

Lemma findall_tag_prefix (p y : str) :
  "#"%char ∉ p -> findall tag_expr (p ++ y) = findall tag_expr y.
Proof.
  induction p as [| c p IH]; intros Hp; [reflexivity |].
  apply not_elem_of_cons in Hp as [Hc Hp].
  cbn [app]. rewrite findall_tag_cons. cbv zeta.
  destruct (Ascii.eqb "#" c) eqn:E; [apply Ascii.eqb_eq in E; congruence |].
  cbn [andb]. apply IH, Hp.
Qed.

Lemma spaces_no_hash (w : str) : forallb is_space w = true -> "#"%char ∉ w.
Proof.
  intros Hw Hin. rewrite forallb_forall in Hw.
  apply list_elem_of_In in Hin. apply Hw in Hin. discriminate.
Qed.

(** X3: what the docstring asks for, where the code does it: a text
    with one tag, standing at its end before whitespace only, whose text
    does not occur before it, is returned without the tag, unless that
    leaves nothing. *)
Lemma find_tags_strips_trailing (p x w : str) :
  "#"%char ∉ p -> x <> [] -> nonspace x = true -> length x <= 32 ->
  forallb is_space w = true ->
  find (p ++ "#"%char :: x ++ w) x = Some (S (length p)) ->
  find_tags (p ++ "#"%char :: x ++ w) =
  Ok ([x], if (0 <? length (p ++ w))%nat then p ++ w
           else p ++ "#"%char :: x ++ w).
Proof.
  intros Hp Hx Hns Hlen Hw Hfind.
  assert (Hw' : "#"%char ∉ w) by (apply spaces_no_hash; exact Hw).
  assert (Hspan : span NonSpace (Some 32%nat) (x ++ w) = length x).
  { apply span_run; [exact Hns | exact Hlen |].
    destruct w as [| c w]; [exact I |]. simpl in Hw.
    apply andb_true_iff in Hw as [Hc _]. simpl. rewrite Hc. reflexivity. }
  assert (Htags : findall tag_expr (p ++ "#"%char :: x ++ w) = [x]).
  { rewrite findall_tag_prefix by exact Hp.
    rewrite findall_tag_cons. cbv zeta. rewrite Hspan.
    replace (1 <=? length x)%nat with true
      by (symmetry; apply Nat.leb_le; destruct x; [congruence | simpl; lia]).
    cbn [Ascii.eqb Bool.eqb andb].
    rewrite take_app_length, drop_app_length.
    rewrite findall_tag_no_hash by exact Hw'. reflexivity. }
  assert (Hstrip : rstrip (p ++ "#"%char :: x ++ w) = p ++ "#"%char :: x).
  { replace (p ++ "#"%char :: x ++ w) with ((p ++ "#"%char :: x) ++ w)
      by (rewrite <- app_assoc; reflexivity).
    rewrite rstrip_spaces by exact Hw.
    destruct (exists_last Hx) as (x0 & c & ->).
    replace (p ++ "#"%char :: x0 ++ [c]) with ((p ++ "#"%char :: x0) ++ [c])
      by (rewrite <- app_assoc; reflexivity).
    apply rstrip_nonspace_end.
    unfold nonspace in Hns. rewrite forallb_app in Hns.
    apply andb_true_iff in Hns as [_ Hc]. simpl in Hc.
    destruct (is_space c); [discriminate | reflexivity]. }
  assert (Hrep : replace (p ++ "#"%char :: x ++ w) ("#"%char :: x) []
                 = p ++ w).
  { unfold replace. rewrite replace_from_prefix.
    - f_equal. cbn [replace_from].
      replace (startswith ("#"%char :: x ++ w) ("#"%char :: x)) with true
        by (symmetry; apply (startswith_app ("#"%char :: x) w)).
      cbn [app length].
      replace (S (length x) - 1) with (length x) by lia.
      rewrite replace_from_skip.
      rewrite drop_app_length. apply replace_from_absent. exact Hw'.
    - intros j Hj.
      destruct (startswith (drop j (p ++ "#"%char :: x ++ w))
                  ("#"%char :: x)) eqn:E; [| reflexivity].
      apply startswith_head in E; [contradiction | exact Hj]. }
  unfold find_tags. rewrite Htags. cbn [rev app strip_tags].
  unfold strip_tag, index. rewrite Hfind. unfold mbind, result_bind.
  rewrite Hstrip, Hrep, length_app. cbn [length].
  replace (S (length p) + length x =? length p + S (length x))%nat with true
    by (symmetry; apply Nat.eqb_eq; lia).
  destruct (0 <? length (p ++ w))%nat; reflexivity.
Qed.

(** Where the tag's text does not occur before the tag, the trailing tag
    is stripped as the docstring says. *)
Example find_tags_trailing_tag_stripped :
  find_tags (s "hello #x  ") = Ok ([s "x"], s "hello   ").
Proof. vm_compute. reflexivity. Qed.

(** A lone tag is kept, since the text would become empty. *)
Example find_tags_only_tag :
  find_tags (s "#x") = Ok ([s "x"], s "#x").
Proof. vm_compute. reflexivity. Qed.

(** *** Facts about [find_links] *)

Section Links.

Variable head : list (str * outcome) -> str -> outcome.

(** One turn of the loop either skips a rejected candidate or makes one
    request for a URL that is not among the rejects. *)
Lemma check_candidate_step (st st' : links_state) (c : str) :
  check_candidate head st c = Ok st' ->
  (requests st' = requests st /\ rejects st' = rejects st) \/
  ((schemed c ∉ rejects st) /\
   exists out,
     requests st' = requests st ++ [(schemed c, out)] /\
     ((exists e, out = Fails e /\
                 rejects st' = {[schemed c]} ∪ rejects st) \/
      ((exists res, out = Responds res) /\ rejects st' = rejects st))).
Proof.
  unfold check_candidate. case_bool_decide as Hrej.
  - intros [= <-]. left. split; reflexivity.
  - intros H. right. split; [exact Hrej |].
    exists (head (requests st) (schemed c)).
    destruct (head (requests st) (schemed c)) as [res | e].
    + destruct (truthy res && (status_code res <? 400)%Z).
      * destruct (index (text st) c) as [i | e']; simpl in H; [| discriminate].
        injection H as <-. simpl. split; [reflexivity |]. right. eauto.
      * injection H as <-. simpl. split; [reflexivity |]. right. eauto.
    + destruct (caught e); [| discriminate].
      injection H as <-. simpl. split; [reflexivity |]. left. eauto.
Qed.

(** What the loop adds to the log of requests. *)
Lemma check_candidates_log (cs : list str) (st st' : links_state) :
  check_candidates head st cs = Ok st' ->
  exists new,
    requests st' = requests st ++ new /\
    sublist (map fst new) (map schemed cs) /\
    rejects st ⊆ rejects st' /\
    (forall u, u ∈ rejects st -> u ∉ map fst new) /\
    (forall u e, (u, Fails e) ∈ new -> u ∈ rejects st') /\
    (forall pre u e post,
       new = pre ++ (u, Fails e) :: post -> u ∉ map fst post).
Proof.
  revert st. induction cs as [| c cs IH]; intros st; simpl.
  - intros [= <-]. exists []. rewrite app_nil_r.
    repeat split; try done.
    + intros u _ Hu. by apply elem_of_nil in Hu.
    + intros u e Hu. by apply elem_of_nil in Hu.
    + intros [| ? ?] ? ? ? ?; discriminate.
  - destruct (check_candidate head st c) as [st1 | e] eqn:Hstep;
      simpl; [| discriminate].
    intros Hrest.
    destruct (IH st1 Hrest) as (new & Hlog & Hsub & Hmono & Hfresh & Hrej & Hsplit).
    destruct (check_candidate_step _ _ _ Hstep)
      as [[Hreq Hr] | (Hnot & out & Hreq & Hout)].
    + exists new. rewrite Hlog, Hreq. split_and!.
      * reflexivity.
      * by apply sublist_cons.
      * by rewrite <- Hr.
      * intros u Hu. apply Hfresh. by rewrite Hr.
      * exact Hrej.
      * exact Hsplit.
    + assert (Hr1 : rejects st ⊆ rejects st1).
      { destruct Hout as [(e & _ & ->) | [_ ->]]; set_solver. }
      exists ((schemed c, out) :: new). rewrite Hlog, Hreq, <- app_assoc.
      split_and!.
      * reflexivity.
      * simpl. by apply sublist_skip.
      * set_solver.
      * intros u Hu. simpl. rewrite not_elem_of_cons. split.
        -- intros ->. contradiction.
        -- apply Hfresh. set_solver.
      * intros u e Hu. apply elem_of_cons in Hu as [Heq | Hu].
        -- injection Heq as -> Hfail.
           destruct Hout as [(e' & _ & Hr') | [(res & Hres) _]];
             [| congruence].
           apply Hmono. rewrite Hr'. set_solver.
        -- by eapply Hrej.
      * intros [| x pre] u e post; simpl.
        -- intros Heq. injection Heq as Hu Hfail Hpost. subst post.
           destruct Hout as [(e' & _ & Hr') | [(res & Hres) _]];
             [| congruence].
           apply Hfresh. rewrite Hr', <- Hu. set_solver.
        -- intros Heq. injection Heq as _ Hnew. by eapply Hsplit.
Qed.

End Links.

(** C8, as the claim states it, fails: with every HEAD request answered
    by status 200, the two occurrences of one URL are both checked; and
    so they are when every request is answered by status 404. *)
Lemma find_links_rechecks_duplicates :
  (st ← find_links_state
          (fun _ u => Responds (Response 200 [] u)) [] (s "a.com a.com");
   Ok (map fst (requests st)))
  = Ok [s "http://a.com"; s "http://a.com"] /\
  (st ← find_links_state
          (fun _ u => Responds (Response 404 [] u)) [] (s "a.com a.com");
   Ok (map fst (requests st)))
  = Ok [s "http://a.com"; s "http://a.com"].
Proof. split; vm_compute; reflexivity. Qed.

(** C8, amended: within one call of [find_links] the candidates are
    checked in reverse textual order, and a normalized URL whose check
    raised a [RequestException] or a [ValueError] is not checked again
    in that call. *)
Theorem find_links_checks
    (head : list (str * outcome) -> str -> outcome)
    (log : list (str * outcome)) (text : str) (st : links_state) :
  find_links_state head log text = Ok st ->
  exists checked,
    requests st = log ++ checked /\
    sublist (map fst checked)
            (map schemed (rev (findall link_expr text))) /\
    (forall pre u e post,
       checked = pre ++ (u, Fails e) :: post -> u ∉ map fst post).
Proof.
  unfold find_links_state. intros H.
  destruct (check_candidates_log head _ _ _ H)
    as (new & Hlog & Hsub & _ & _ & _ & Hsplit).
  exists new. simpl in Hlog. repeat split; assumption.
Qed.

(** A network that cannot be reached: every request raises. *)
Definition unreachable : list (str * outcome) -> str -> outcome :=
  fun _ _ => Fails RequestException.

Lemma find_links_checks_witness :
  exists st,
    find_links_state unreachable [] (s "a.com a.com b.org") = Ok st /\
    exists checked,
      requests st = [] ++ checked /\
      sublist (map fst checked)
              (map schemed (rev (findall link_expr (s "a.com a.com b.org")))) /\
      (forall pre u e post,
         checked = pre ++ (u, Fails e) :: post -> u ∉ map fst post).
Proof.
  eexists. split; [vm_compute; reflexivity |].
  apply (find_links_checks unreachable [] (s "a.com a.com b.org")).
  vm_compute. reflexivity.
Defined.

(** *** Facts about [process_attachments] *)

(** A failed existence check is recovered in the loop: the candidate
    goes to the rejects, the accepted links and the text stay. *)
Lemma check_candidate_recovers
    (head : list (str * outcome) -> str -> outcome)
    (st : links_state) (c : str) (e : exn) :
  schemed c ∉ rejects st ->
  head (requests st) (schemed c) = Fails e ->
  caught e = true ->
  check_candidate head st c =
  Ok (LinksState (rv st) ({[schemed c]} ∪ rejects st) (text st)
        (requests st ++ [(schemed c, Fails e)])).
Proof.
  intros Hnot Hhead Hc. unfold check_candidate.
  rewrite bool_decide_eq_false_2 by exact Hnot.
  rewrite Hhead, Hc. reflexivity.
Qed.

(** Every page answers a HEAD request with status 200 and an HTML
    content type. *)
Definition html_pages : list (str * outcome) -> str -> outcome :=
  fun _ u => Responds (Response 200 [(s "content-type", s "text/html")] u).

Definition no_identities : str -> option nat := fun _ => None.

(** The page extractor cannot fetch anything. *)
Definition extract_fails : str -> result page :=
  fun _ => Raise ExtractionError.

Definition extract_titles : str -> result page :=
  fun u => Ok (Page (s "A page") []).

(** C7 at a failing input: the link passes the existence check, the
    page extractor then fails, and the exception leaves
    [process_attachments]; nothing around [g.extract] catches it. *)
Theorem process_attachments_extract_raises :
  process_attachments html_pages no_identities extract_fails [] []
    (s "see a.com") = Raise ExtractionError.
Proof. vm_compute. reflexivity. Qed.

(** The same text when the existence check itself fails: the link is
    dropped and the call returns. *)
Example process_attachments_head_recovered :
  (a ← process_attachments unreachable no_identities extract_fails [] []
         (s "see a.com");
   Ok (message a, elements (percepts a)))
  = Ok (s "see a.com", []).
Proof. vm_compute. reflexivity. Qed.

(** [get_or_create] answers a second call for the same value with the
    instance of the first. *)
Lemma get_or_create_again (k : percept_kind) (u : str) (h h' : heap)
    (i : nat) (b : bool) :
  get_or_create k u h = (i, b, h') ->
  get_or_create k u h' = (i, false, h').
Proof.
  unfold get_or_create.
  destruct (list_find (fun p => kind p = k /\ percept_url p = u) h)
    as [[j p] |] eqn:E.
  - intros [= <- <- <-]. rewrite E. reflexivity.
  - intros [= <- <- <-].
    rewrite list_find_app_r by exact E. simpl.
    rewrite decide_True by (split; reflexivity). reflexivity.
Qed.

(** Two runs over a text with the same link resolve to one
    [LinkPercept] instance. *)
Example link_percepts_shared :
  (a1 ← process_attachments html_pages no_identities extract_titles [] []
          (s "see a.com");
   a2 ← process_attachments html_pages no_identities extract_titles
          (objects a1) [] (s "and a.com again");
   Ok (elements (percepts a1), elements (percepts a2), length (objects a2)))
  = Ok ([0], [0], 1).
Proof. vm_compute. reflexivity. Qed.

(** C3 at a failing input: two runs over texts with the same tag.  Each
    run calls the class [TagPercept], so the second run makes a second
    instance with the same title instead of resolving to the first. *)
Theorem tag_percepts_not_shared :
  (a1 ← process_attachments unreachable no_identities extract_fails [] []
          (s "one #t");
   a2 ← process_attachments unreachable no_identities extract_fails
          (objects a1) [] (s "two #t");
   Ok (elements (percepts a1), elements (percepts a2), objects a2))
  = Ok ([0], [1],
        [Percept TagPercept (s "t") [] None [];
         Percept TagPercept (s "t") [] None []]).
Proof. vm_compute. reflexivity. Qed.

(** *** Tags and mentions: what the patterns report *)

(** Both patterns are a sigil followed by a bounded run of [\S]. *)
Definition sigil_expr (c0 : ascii) (lo hi : nat) : re :=
  Seq (One (Chr c0)) (Grp (Rep NonSpace lo (Some hi))).

Lemma match_here_sigil (c0 : ascii) (lo hi : nat) (c : ascii) (x : str) :
  match_here (sigil_expr c0 lo hi) (c :: x) =
  let n := span NonSpace (Some hi) x in
  if Ascii.eqb c0 c && (lo <=? n)%nat
  then Some (c :: take n x, Some (take n x))
  else None.
Proof.
  unfold match_here, sigil_expr. cbn [go cls_match].
  destruct (Ascii.eqb c0 c); cbn [andb]; [| reflexivity].
  rewrite rep_total.
  pose proof (span_le NonSpace (Some hi) x) as Hle.
  destruct (lo <=? span NonSpace (Some hi) x)%nat; [| reflexivity].
  rewrite length_drop.
  replace (length (c :: x) - (length x - span NonSpace (Some hi) x))
    with (S (span NonSpace (Some hi) x)) by (simpl; lia).
  replace (length x - (length x - span NonSpace (Some hi) x))
    with (span NonSpace (Some hi) x) by lia.
  reflexivity.
Qed.

Lemma findall_sigil_cons (c0 : ascii) (lo hi : nat) (c : ascii) (x : str) :
  findall (sigil_expr c0 lo hi) (c :: x) =
  let n := span NonSpace (Some hi) x in
  if Ascii.eqb c0 c && (lo <=? n)%nat
  then take n x :: findall (sigil_expr c0 lo hi) (drop n x)
  else findall (sigil_expr c0 lo hi) x.
Proof.
  unfold findall. cbn [findall_from]. rewrite match_here_sigil. cbv zeta.
  pose proof (span_le NonSpace (Some hi) x) as Hle.
  destruct (Ascii.eqb c0 c && (lo <=? span NonSpace (Some hi) x)%nat);
    [| reflexivity].
  rewrite findall_from_skip. cbn [length]. rewrite length_take.
  replace (S (span NonSpace (Some hi) x `min` length x) - 1)
    with (span NonSpace (Some hi) x) by lia.
  reflexivity.
Qed.

(** Every match is a run of [lo] to [hi] characters, none of them
    whitespace. *)
Lemma findall_sigil_runs (c0 : ascii) (lo hi : nat) (x : str) :
  Forall (fun t => lo <= length t <= hi /\ nonspace t = true)
         (findall (sigil_expr c0 lo hi) x).
Proof.
  remember (length x) as n eqn:Hn.
  revert x Hn. induction n as [n IH] using lt_wf_ind. intros x Hn.
  destruct x as [| c x]; [constructor |].
  rewrite findall_sigil_cons. cbv zeta.
  pose proof (span_le NonSpace (Some hi) x) as Hle.
  pose proof (span_bound NonSpace hi x) as Hhi.
  pose proof (span_all NonSpace (Some hi) x) as Hall.
  destruct (Ascii.eqb c0 c); cbn [andb].
  - destruct (lo <=? span NonSpace (Some hi) x)%nat eqn:E1.
    + apply Nat.leb_le in E1. constructor.
      * rewrite length_take. split; [lia | exact Hall].
      * eapply IH; [| reflexivity]. subst n. simpl. rewrite length_drop. lia.
    + eapply IH; [| reflexivity]. subst n. simpl. lia.
  - eapply IH; [| reflexivity]. subst n. simpl. lia.
Qed.

Lemma findall_sigil_absent (c0 : ascii) (lo hi : nat) (x : str) :
  c0 ∉ x -> findall (sigil_expr c0 lo hi) x = [].
Proof.
  induction x as [| c x IH]; intros Hx; [reflexivity |].
  apply not_elem_of_cons in Hx as [Hc Hx].
  rewrite findall_sigil_cons. cbv zeta.
  destruct (Ascii.eqb c0 c) eqn:E; [apply Ascii.eqb_eq in E; congruence |].
  cbn [andb]. apply IH, Hx.
Qed.

Lemma tag_split_occurs (x : str) (ts : list str) :
  tag_split x ts ->
  Forall (fun t => exists a b, x = a ++ "#"%char :: t ++ b) ts.
Proof.
  induction 1 as [x | g t x ts Ht Hns Hx IH]; constructor.
  - exists g, x. reflexivity.
  - eapply Forall_impl; [exact IH |]. intros t' (a & b & ->).
    exists (g ++ "#"%char :: t ++ a), b.
    rewrite <- ?app_assoc. simpl. rewrite <- ?app_assoc. reflexivity.
Qed.

(** X1: for every text, [find_tags] returns, and each tag it reports has
    1 to 32 characters, holds no whitespace and stands in the text right
    after a [#]. *)
Theorem find_tags_reports_tags (text : str) :
  exists tags t,
    find_tags text = Ok (tags, t) /\
    Forall (fun tag =>
              (1 <= length tag <= 32 /\ nonspace tag = true) /\
              exists a b, text = a ++ "#"%char :: tag ++ b)
           tags.
Proof.
  destruct (find_tags_returns text) as [t Ht].
  exists (rev (findall tag_expr text)), t. split; [exact Ht |].
  apply Forall_rev, Forall_and. split.
  - apply (findall_sigil_runs "#" 1 32).
  - apply tag_split_occurs, findall_tag_split.
Qed.

(** One turn of the loop of [find_tags]: the text stays, or the tag was
    the last thing before trailing whitespace and is cut out with its
    [#]. *)
Lemma strip_tag_tail (a t r : str) :
  t <> [] -> nonspace t = true ->
  strip_tag (a ++ "#"%char :: t ++ r) t = Ok (a ++ "#"%char :: t ++ r) \/
  (forallb is_space r = true /\
   strip_tag (a ++ "#"%char :: t ++ r) t = Ok (a ++ r)).
Proof.
  intros Ht Hns. unfold strip_tag, index.
  set (x := a ++ "#"%char :: t ++ r).
  assert (Hocc : startswith (drop (length a + 1) x) t = true).
  { subst x.
    replace (a ++ "#"%char :: t ++ r) with ((a ++ ["#"%char]) ++ t ++ r)
      by (rewrite <- app_assoc; reflexivity).
    rewrite drop_app_length'; [apply startswith_app |].
    rewrite length_app. simpl. lia. }
  destruct (find_le _ _ _ Hocc) as (i & Hfind & Hi). rewrite Hfind. simpl.
  destruct (i + length t =? length (rstrip x)) eqn:E; [| left; reflexivity].
  right. apply Nat.eqb_eq in E.
  destruct (exists_last Ht) as (t0 & c & Et).
  assert (Hc : is_space c = false).
  { subst t. unfold nonspace in Hns. rewrite forallb_app in Hns.
    apply andb_true_iff in Hns as [_ Hc]. simpl in Hc.
    destruct (is_space c); [discriminate | reflexivity]. }
  assert (Hge : length (a ++ "#"%char :: t0) + 1 <= length (rstrip x)).
  { subst x t. replace (a ++ "#"%char :: (t0 ++ [c]) ++ r)
      with ((a ++ "#"%char :: t0) ++ c :: r)
      by (rewrite <- ?app_assoc; simpl; rewrite <- ?app_assoc; reflexivity).
    apply rstrip_length_ge. exact Hc. }
  assert (Hlen : length t = length t0 + 1)
    by (subst t; rewrite length_app; reflexivity).
  rewrite ?length_app in Hge. simpl in Hge.
  assert (Hieq : i = length a + 1) by lia.
  assert (Hr : forallb is_space r = true).
  { apply (rstrip_tail_spaces (a ++ "#"%char :: t)).
    replace ((a ++ "#"%char :: t) ++ r) with x
      by (subst x; rewrite <- app_assoc; reflexivity).
    rewrite length_app. simpl. lia. }
  split; [exact Hr |]. f_equal. unfold replace. subst x.
  rewrite replace_from_prefix.
  - f_equal. cbn [replace_from].
    replace (startswith ("#"%char :: t ++ r) ("#"%char :: t)) with true
      by (symmetry; apply (startswith_app ("#"%char :: t) r)).
    cbn [app length].
    replace (S (length t) - 1) with (length t) by lia.
    rewrite replace_from_skip, drop_app_length.
    apply replace_from_absent, spaces_no_hash, Hr.
  - intros j Hj.
    destruct (startswith (drop j (a ++ "#"%char :: t ++ r))
                ("#"%char :: t)) eqn:Es; [| reflexivity].
    apply startswith_drop_S in Es.
    rewrite (find_first _ _ _ (S j) Hfind) in Es; [discriminate | lia].
Qed.

(** The loop of [find_tags] leaves a prefix of the text, followed by
    whitespace only. *)
Lemma strip_tags_tail (x : str) (ts : list str) :
  tag_split x ts ->
  forall p, exists k w,
    strip_tags (rev ts) (p ++ x) = Ok (p ++ take k x ++ w) /\
    forallb is_space w = true.
Proof.
  induction 1 as [x | g t x ts Ht Hns Hx IH]; intros p; simpl.
  - exists (length x), []. rewrite firstn_all, app_nil_r. split; reflexivity.
  - rewrite strip_tags_app.
    destruct (IH (p ++ g ++ "#"%char :: t)) as (k & w & Hr & Hw).
    replace (p ++ g ++ "#"%char :: t ++ x)
      with ((p ++ g ++ "#"%char :: t) ++ x)
      by (rewrite <- ?app_assoc; simpl; rewrite <- ?app_assoc; reflexivity).
    rewrite Hr. simpl.
    replace ((p ++ g ++ "#"%char :: t) ++ take k x ++ w)
      with ((p ++ g) ++ "#"%char :: t ++ take k x ++ w)
      by (rewrite <- ?app_assoc; simpl; rewrite <- ?app_assoc; reflexivity).
    unfold mbind, result_bind.
    destruct (strip_tag_tail (p ++ g) t (take k x ++ w) Ht Hns)
      as [-> | [Hsp ->]].
    + exists (length (g ++ "#"%char :: t) + k), w. split; [| exact Hw].
      f_equal.
      replace (g ++ "#"%char :: t ++ x) with ((g ++ "#"%char :: t) ++ x)
        by (rewrite <- ?app_assoc; reflexivity).
      rewrite take_app_add.
      rewrite <- ?app_assoc. simpl. rewrite <- ?app_assoc. reflexivity.
    + exists (length g), (take k x ++ w). split; [| exact Hsp].
      f_equal. rewrite take_app_length, <- app_assoc. reflexivity.
Qed.

(** X2: the text [find_tags] returns is a prefix of the input followed
    by whitespace only, and it is empty only when the input is. *)
Theorem find_tags_returns_prefix (text : str) :
  exists tags t k w,
    find_tags text = Ok (tags, t) /\
    t = take k text ++ w /\
    forallb is_space w = true /\
    (t = [] -> text = []).
Proof.
  unfold find_tags.
  destruct (strip_tags_tail text _ (findall_tag_split text) [])
    as (k & w & Hr & Hw).
  simpl in Hr. rewrite Hr. unfold mbind, result_bind.
  destruct (0 <? length (take k text ++ w)) eqn:E.
  - exists (rev (findall tag_expr text)), (take k text ++ w), k, w.
    split_and!; try done.
    intros E'. rewrite E' in E. discriminate.
  - exists (rev (findall tag_expr text)), text, (length text), [].
    split_and!; try done.
    rewrite firstn_all, app_nil_r. reflexivity.
Qed.

Lemma find_tags_strips_trailing_witness :
  ("#"%char ∉ s "hello ") /\ s "x" <> [] /\ nonspace (s "x") = true /\
  length (s "x") <= 32 /\ forallb is_space (s "  ") = true /\
  find (s "hello " ++ "#"%char :: s "x" ++ s "  ") (s "x") =
    Some (S (length (s "hello "))) /\
  find_tags (s "hello " ++ "#"%char :: s "x" ++ s "  ") =
  Ok ([s "x"], s "hello   ").
Proof.
  assert (H1 : "#"%char ∉ s "hello ").
  { intros H. repeat (apply elem_of_cons in H as [H | H]; [discriminate |]).
    by apply elem_of_nil in H. }
  assert (H2 : s "x" <> []) by discriminate.
  assert (H3 : length (s "x") <= 32) by (simpl; lia).
  split; [exact H1 |]. split; [exact H2 |]. split; [reflexivity |].
  split; [exact H3 |]. split; [reflexivity |]. split; [reflexivity |].
  apply (find_tags_strips_trailing (s "hello ") (s "x") (s "  ") H1 H2
           eq_refl H3 eq_refl eq_refl).
Defined.

(** *** Facts about [find_mentions] *)

(** X4: [find_mentions] keeps, in textual order, those matches of the
    mention pattern that name an identity; each has 3 to 80 characters
    and no whitespace, and comes with the identity of that username. *)
Theorem find_mentions_resolved (identity_by_username : str -> option nat)
    (text : str) :
  map fst (find_mentions identity_by_username text) =
    filter (fun t => is_Some (identity_by_username t))
           (findall mention_expr text) /\
  Forall (fun '(t, i) =>
            identity_by_username t = Some i /\
            3 <= length t <= 80 /\ nonspace t = true)
         (find_mentions identity_by_username text).
Proof.
  unfold find_mentions.
  pose proof (findall_sigil_runs "@" 3 80 text) as Hruns.
  change (sigil_expr "@" 3 80) with mention_expr in Hruns.
  induction Hruns as [| t l Ht Hl [IH1 IH2]]; [split; constructor |].
  cbn [omap list_omap]. rewrite filter_cons.
  destruct (identity_by_username t) as [i |] eqn:E.
  - rewrite decide_True by eauto. split.
    + simpl. f_equal. exact IH1.
    + constructor; [| exact IH2]. split; [exact E | exact Ht].
  - rewrite decide_False by (intros [? ?]; discriminate).
    split; assumption.
Qed.

(** *** More facts about [find_links] *)

(** A pattern that asks for a character fails on a text without it. *)
Lemma go_one_absent {T : Type} (c0 : ascii) (r : re) (x : str)
    (g : option str) (cont : str -> option str -> option T) :
  c0 ∉ x -> go (Seq (One (Chr c0)) r) x g cont = None.
Proof.
  intros Hx. destruct x as [| c x]; [reflexivity |]. cbn [go cls_match].
  destruct (Ascii.eqb c0 c) eqn:Ec; [| reflexivity].
  apply Ascii.eqb_eq in Ec. subst c. exfalso. apply Hx, elem_of_cons.
  left. reflexivity.
Qed.

Lemma go_seq_fail {T : Type} (a b : re) (x : str) (g : option str)
    (cont : str -> option str -> option T) :
  (forall y g', y `suffix_of` x -> go b y g' cont = None) ->
  go (Seq a b) x g cont = None.
Proof.
  intros H. change (go a x g (fun x' g' => go b x' g' cont) = None).
  apply go_fail. exact H.
Qed.

Lemma not_elem_of_suffix (c : ascii) (y x : str) :
  y `suffix_of` x -> c ∉ x -> c ∉ y.
Proof.
  intros [p ->] Hx Hy. apply Hx, elem_of_app. right. exact Hy.
Qed.

(** A link needs a dot. *)
Lemma match_here_link_no_dot (x : str) :
  "."%char ∉ x -> match_here link_expr x = None.
Proof.
  intros Hx. unfold match_here, link_expr.
  match goal with
  | |- go (Grp ?a) ?x ?g ?cont = None =>
      change (go a x g
                (fun x' _ => cont x' (Some (firstn (length x - length x') x)))
              = None)
  end.
  apply go_seq_fail. intros y g' Hy.
  apply go_seq_fail. intros z g'' Hz.
  apply go_one_absent.
  eapply not_elem_of_suffix; [| exact Hx]. etrans; eassumption.
Qed.

Lemma findall_link_no_dot (x : str) :
  "."%char ∉ x -> findall link_expr x = [].
Proof.
  unfold findall. induction x as [| c x IH]; intros Hx; [reflexivity |].
  cbn [findall_from]. rewrite match_here_link_no_dot by exact Hx.
  apply IH. apply not_elem_of_cons in Hx as [_ Hx]. exact Hx.
Qed.

(** X5: a text without a dot holds no link candidate: [find_links]
    makes no request, reports no link and returns the text as it is. *)
Theorem find_links_no_dot
    (head : list (str * outcome) -> str -> outcome)
    (log : list (str * outcome)) (text : str) :
  "."%char ∉ text ->
  find_links_state head log text = Ok (LinksState [] ∅ text log) /\
  find_links head log text = Ok ([], text).
Proof.
  intros Hx. unfold find_links, find_links_state.
  rewrite findall_link_no_dot by exact Hx. split; reflexivity.
Qed.

Lemma find_links_no_dot_witness :
  ("."%char ∉ s "no link") /\
  find_links_state html_pages [] (s "no link")
    = Ok (LinksState [] ∅ (s "no link") []) /\
  find_links html_pages [] (s "no link") = Ok ([], s "no link").
Proof.
  assert (H : "."%char ∉ s "no link").
  { intros H. repeat (apply elem_of_cons in H as [H | H]; [discriminate |]).
    by apply elem_of_nil in H. }
  split; [exact H |].
  apply (find_links_no_dot html_pages [] (s "no link") H).
Defined.

(** What a checked URL adds to the links: the response, when its status
    is below 400. *)
Definition accepted (r : str * outcome) : option response :=
  match r.2 with
  | Responds res => if (status_code res <? 400)%Z then Some res else None
  | Fails _ => None
  end.

Lemma truthy_below_400 (res : response) :
  truthy res && (status_code res <? 400)%Z = (status_code res <? 400)%Z.
Proof.
  unfold truthy.
  destruct (status_code res <? 400)%Z eqn:E; [| apply andb_false_r].
  apply Z.ltb_lt in E.
  replace (400 <=? status_code res)%Z with false
    by (symmetry; apply Z.leb_gt; exact E).
  reflexivity.
Qed.

Section Accepted.

Variable head : list (str * outcome) -> str -> outcome.

Lemma check_candidate_accepts (st st' : links_state) (c : str) :
  check_candidate head st c = Ok st' ->
  exists new,
    requests st' = requests st ++ new /\ rv st' = rv st ++ omap accepted new.
Proof.
  unfold check_candidate. case_bool_decide as Hrej.
  - intros [= <-]. exists []. rewrite !app_nil_r. split; reflexivity.
  - destruct (head (requests st) (schemed c)) as [res | e] eqn:Eh.
    + rewrite truthy_below_400.
      destruct (status_code res <? 400)%Z eqn:E.
      * destruct (index (text st) c) as [i | e']; simpl; [| discriminate].
        intros [= <-]. exists [(schemed c, Responds res)]. simpl.
        unfold accepted. simpl. rewrite E. split; reflexivity.
      * intros [= <-]. exists [(schemed c, Responds res)]. simpl.
        unfold accepted. simpl. rewrite E, app_nil_r. split; reflexivity.
    + destruct (caught e); [| discriminate].
      intros [= <-]. exists [(schemed c, Fails e)]. simpl.
      rewrite app_nil_r. split; reflexivity.
Qed.

Lemma check_candidates_accepts (cs : list str) (st st' : links_state) :
  check_candidates head st cs = Ok st' ->
  exists new,
    requests st' = requests st ++ new /\ rv st' = rv st ++ omap accepted new.
Proof.
  revert st. induction cs as [| c cs IH]; intros st; simpl.
  - intros [= <-]. exists []. rewrite !app_nil_r. split; reflexivity.
  - destruct (check_candidate head st c) as [st1 | e] eqn:Hstep;
      simpl; [| discriminate].
    intros Hrest.
    destruct (check_candidate_accepts _ _ _ Hstep) as (n1 & Hq1 & Hr1).
    destruct (IH _ Hrest) as (n2 & Hq2 & Hr2).
    exists (n1 ++ n2). rewrite Hq2, Hq1, Hr2, Hr1, omap_app, !app_assoc.
    split; reflexivity.
Qed.

End Accepted.

(** X6: the links [find_links] reports are the responses of this call's
    HEAD requests whose status is below 400, in the order the requests
    were made. *)
Theorem find_links_accepts
    (head : list (str * outcome) -> str -> outcome)
    (log : list (str * outcome)) (text : str) (st : links_state) :
  find_links_state head log text = Ok st ->
  exists checked,
    requests st = log ++ checked /\ rv st = omap accepted checked.
Proof.
  unfold find_links_state. intros H.
  destruct (check_candidates_accepts head _ _ _ H) as (new & Hq & Hr).
  exists new. split; assumption.
Qed.

(** Pages that are gone: every request is answered by status 404, but
    for the one host that is up. *)
Definition one_page_up : list (str * outcome) -> str -> outcome :=
  fun _ u =>
    Responds (Response (if Py.eqb u (s "http://up.org") then 200 else 404)
                [] u).

Lemma find_links_accepts_witness :
  exists st,
    find_links_state one_page_up [] (s "gone.com up.org x") = Ok st /\
    exists checked,
      requests st = [] ++ checked /\ rv st = omap accepted checked.
Proof.
  eexists. split; [vm_compute; reflexivity |].
  apply (find_links_accepts one_page_up [] (s "gone.com up.org x")).
  vm_compute. reflexivity.
Defined.

(** *** [find_links] returns *)

(** A text with its link candidates: each stands in the text, is not
    empty and holds no whitespace. *)
Inductive link_split : str -> list str -> Prop :=
| link_split_nil (x : str) : link_split x []
| link_split_cons (g c x : str) (cs : list str) :
    c <> [] -> nonspace c = true -> link_split x cs ->
    link_split (g ++ c ++ x) (c :: cs).

Lemma link_split_extend (d : ascii) (x : str) (cs : list str) :
  link_split x cs -> link_split (d :: x) cs.
Proof.
  intros H. destruct H as [x | g c x cs Hc Hns Hx].
  - constructor.
  - apply (link_split_cons (d :: g)); assumption.
Qed.

Lemma findall_grp_split (a : re) (x : str) :
  re_nonspace a = true -> 1 <= min_len a ->
  link_split x (findall (Grp a) x).
Proof.
  intros Ha Hmin.
  remember (length x) as n eqn:Hn.
  revert x Hn. induction n as [n IH] using lt_wf_ind. intros x Hn.
  destruct x as [| d x]; [constructor |].
  unfold findall. cbn [findall_from].
  destruct (match_here (Grp a) (d :: x)) as [[whole g] |] eqn:E.
  - apply match_here_grp in E as (-> & Hns & Hlen & y & Hy); [| exact Ha].
    destruct whole as [| d' whole]; [simpl in Hlen; lia |].
    injection Hy as <- ->.
    rewrite findall_from_skip. cbn [length].
    replace (S (length whole) - 1) with (length whole) by lia.
    rewrite drop_app_length.
    apply (link_split_cons [] (d :: whole) y); [discriminate | exact Hns |].
    eapply IH; [| reflexivity]. subst n. simpl. rewrite length_app. lia.
  - apply link_split_extend. eapply IH; [| reflexivity]. subst n. simpl. lia.
Qed.

Lemma findall_link_split (x : str) : link_split x (findall link_expr x).
Proof.
  unfold link_expr. apply findall_grp_split; [reflexivity |]. simpl. lia.
Qed.

Lemma spaces_absent (c : ascii) (w : str) :
  is_space c = false -> forallb is_space w = true -> c ∉ w.
Proof.
  intros Hc Hw Hin. rewrite forallb_forall in Hw.
  apply list_elem_of_In in Hin. apply Hw in Hin. congruence.
Qed.

(** The candidate is found in the text; when its first occurrence ends
    where the right-stripped text ends, only whitespace follows it and
    [replace] cuts out just this occurrence. *)
Lemma strip_link_tail (a c r : str) :
  c <> [] -> nonspace c = true ->
  exists i,
    index (a ++ c ++ r) c = Ok i /\
    ((i + length c =? length (rstrip (a ++ c ++ r)))%nat = true ->
     forallb is_space r = true /\ replace (a ++ c ++ r) c [] = a ++ r).
Proof.
  intros Hc Hns. unfold index.
  set (x := a ++ c ++ r).
  assert (Hocc : startswith (drop (length a) x) c = true).
  { subst x. rewrite drop_app_length. apply startswith_app. }
  destruct (find_le _ _ _ Hocc) as (i & Hfind & Hi). rewrite Hfind.
  exists i. split; [reflexivity |]. intros E. apply Nat.eqb_eq in E.
  destruct (exists_last Hc) as (c0 & d & Ec).
  assert (Hd : is_space d = false).
  { subst c. unfold nonspace in Hns. rewrite forallb_app in Hns.
    apply andb_true_iff in Hns as [_ Hd]. simpl in Hd.
    destruct (is_space d); [discriminate | reflexivity]. }
  assert (Hge : length (a ++ c0) + 1 <= length (rstrip x)).
  { subst x. rewrite Ec.
    replace (a ++ (c0 ++ [d]) ++ r) with ((a ++ c0) ++ d :: r)
      by (rewrite <- ?app_assoc; reflexivity).
    apply rstrip_length_ge. exact Hd. }
  assert (Hlen : length c = length c0 + 1)
    by (rewrite Ec, length_app; reflexivity).
  rewrite length_app in Hge.
  assert (Hieq : i = length a) by lia.
  assert (Hr : forallb is_space r = true).
  { apply (rstrip_tail_spaces (a ++ c)).
    replace ((a ++ c) ++ r) with x by (subst x; rewrite <- app_assoc; reflexivity).
    rewrite length_app. lia. }
  split; [exact Hr |]. clear Ec Hlen Hge c0.
  destruct c as [| c1 c]; [congruence |].
  assert (Hc1 : is_space c1 = false).
  { simpl in Hns. apply andb_true_iff in Hns as [Hc1 _].
    destruct (is_space c1); [discriminate | reflexivity]. }
  unfold replace. subst x. rewrite replace_from_prefix.
  - f_equal. cbn [app replace_from].
    replace (startswith (c1 :: c ++ r) (c1 :: c)) with true
      by (symmetry; apply (startswith_app (c1 :: c) r)).
    cbn [app length].
    replace (S (length c) - 1) with (length c) by lia.
    rewrite replace_from_skip, drop_app_length.
    apply replace_from_absent, spaces_absent; assumption.
  - intros j Hj. apply (find_first _ _ i); [exact Hfind | lia].
Qed.

Lemma check_candidates_app
    (head : list (str * outcome) -> str -> outcome)
    (l1 l2 : list str) (st : links_state) :
  check_candidates head st (l1 ++ l2) =
  (st' ← check_candidates head st l1; check_candidates head st' l2).
Proof.
  revert st. induction l1 as [| c l1 IH]; intros st; simpl; [reflexivity |].
  destruct (check_candidate head st c) as [st1 | e]; simpl;
    [apply IH | reflexivity].
Qed.

Section Returns.

Variable head : list (str * outcome) -> str -> outcome.

(** What may leave the loop: an exception of [requests.head] that the
    [except] clause does not name. *)
Definition head_raised (e : exn) : Prop :=
  exists log u, head log u = Fails e /\ caught e = false.

(** One turn of the loop on a text that holds the candidate. *)
Lemma check_candidate_text (st : links_state) (a c r : str) :
  c <> [] -> nonspace c = true -> text st = a ++ c ++ r ->
  (exists st',
     check_candidate head st c = Ok st' /\
     (text st' = a ++ c ++ r \/
      (forallb is_space r = true /\ text st' = a ++ r))) \/
  (exists e, check_candidate head st c = Raise e /\ head_raised e).
Proof.
  intros Hc Hns Htext. unfold check_candidate.
  case_bool_decide as Hrej; [left; eauto |].
  destruct (head (requests st) (schemed c)) as [res | e] eqn:Eh.
  - left. destruct (truthy res && (status_code res <? 400)%Z); [| eauto].
    rewrite Htext.
    destruct (strip_link_tail a c r Hc Hns) as (i & -> & Hi).
    unfold mbind, result_bind. eexists. split; [reflexivity |].
    cbn [text].
    destruct (i + length c =? length (rstrip (a ++ c ++ r)))%nat;
      [| left; reflexivity].
    right. destruct (Hi eq_refl) as [Hr ->]. split; [exact Hr | reflexivity].
  - destruct (caught e) eqn:Ec.
    + left. eexists. split; [reflexivity |]. left. exact Htext.
    + right. exists e. split; [reflexivity |]. exists (requests st), (schemed c).
      split; assumption.
Qed.

(** The loop never fails on [text.index]: when a candidate's turn comes,
    the text still holds everything up to it. *)
Lemma check_candidates_text (x : str) (cs : list str) :
  link_split x cs ->
  forall p st, text st = p ++ x ->
  (exists st' k w,
     check_candidates head st (rev cs) = Ok st' /\
     text st' = p ++ take k x ++ w /\ forallb is_space w = true) \/
  (exists e, check_candidates head st (rev cs) = Raise e /\ head_raised e).
Proof.
  induction 1 as [x | g c x cs Hc Hns Hx IH]; intros p st Htext; simpl.
  - left. exists st, (length x), []. rewrite firstn_all, app_nil_r.
    split_and!; done.
  - rewrite check_candidates_app.
    destruct (IH (p ++ g ++ c) st) as [(st1 & k & w & -> & Ht1 & Hw) | (e & -> & He)].
    { rewrite Htext, <- ?app_assoc. reflexivity. }
    2: { right. exists e. split; [reflexivity | exact He]. }
    unfold mbind, result_bind. cbn [check_candidates].
    destruct (check_candidate_text st1 (p ++ g) c (take k x ++ w) Hc Hns)
      as [(st2 & -> & Ht2) | (e & -> & He)].
    { rewrite Ht1, <- ?app_assoc. reflexivity. }
    2: { right. exists e. split; [reflexivity | exact He]. }
    left. destruct Ht2 as [Ht2 | [Hsp Ht2]].
    + exists st2, (length (g ++ c) + k), w. split_and!; try done.
      rewrite Ht2.
      replace (g ++ c ++ x) with ((g ++ c) ++ x)
        by (rewrite <- ?app_assoc; reflexivity).
      rewrite take_app_add, <- ?app_assoc. reflexivity.
    + exists st2, (length g), (take k x ++ w). split_and!; try done.
      rewrite Ht2, take_app_length, <- app_assoc. reflexivity.
Qed.

End Returns.

(** X7: [find_links] returns, with a text that is a prefix of the input
    followed by whitespace only, unless [requests.head] raises an
    exception other than [RequestException] and [ValueError], which then
    leaves the call; [text.index] never fails in it. *)
Theorem find_links_returns_or_head_raised
    (head : list (str * outcome) -> str -> outcome)
    (log : list (str * outcome)) (text : str) :
  (exists st k w,
     find_links_state head log text = Ok st /\
     Helpers.text st = take k text ++ w /\ forallb is_space w = true) \/
  (exists e, find_links_state head log text = Raise e /\ head_raised head e).
Proof.
  unfold find_links_state.
  apply (check_candidates_text head text _ (findall_link_split text) []).
  reflexivity.
Qed.

(** *** More facts about [process_attachments] *)

Lemma find_tags_no_hash (text : str) :
  "#"%char ∉ text -> find_tags text = Ok ([], text).
Proof.
  intros H. unfold find_tags. rewrite findall_tag_no_hash by exact H.
  simpl. destruct (0 <? length text); reflexivity.
Qed.

(** X8: a text without [#], [@] and [.] has no attachments: the message
    is the text, no percept is made, no request is sent and the page
    extractor is not called. *)
Theorem process_attachments_plain_text
    (head : list (str * outcome) -> str -> outcome)
    (identity_by_username : str -> option nat)
    (extract : str -> result page)
    (h : heap) (log : list (str * outcome)) (text : str) :
  "#"%char ∉ text -> "@"%char ∉ text -> "."%char ∉ text ->
  process_attachments head identity_by_username extract h log text
  = Ok (Attachments text ∅ h).
Proof.
  intros Htag Hat Hdot. unfold process_attachments.
  rewrite find_tags_no_hash by exact Htag. cbn [mbind result_bind].
  unfold find_mentions, mention_expr.
  rewrite (findall_sigil_absent "@" 3 80) by exact Hat.
  unfold find_links, find_links_state.
  rewrite findall_link_no_dot by exact Hdot. reflexivity.
Qed.

Lemma process_attachments_plain_text_witness :
  ("#"%char ∉ s "hi") /\ ("@"%char ∉ s "hi") /\ ("."%char ∉ s "hi") /\
  process_attachments unreachable no_identities extract_fails [] [] (s "hi")
  = Ok (Attachments (s "hi") ∅ []).
Proof.
  assert (H : forall c : ascii, c <> "h"%char -> c <> "i"%char -> c ∉ s "hi").
  { intros c H1 H2 H.
    repeat (apply elem_of_cons in H as [H | H]; [congruence |]).
    by apply elem_of_nil in H. }
  assert (H1 : "#"%char ∉ s "hi") by (apply H; discriminate).
  assert (H2 : "@"%char ∉ s "hi") by (apply H; discriminate).
  assert (H3 : "."%char ∉ s "hi") by (apply H; discriminate).
  split; [exact H1 |]. split; [exact H2 |]. split; [exact H3 |].
  apply (process_attachments_plain_text unreachable no_identities
           extract_fails [] [] (s "hi") H1 H2 H3).
Defined.

Section Heap.

Variable extract : str -> result page.

Lemma get_or_create_prefix (k : percept_kind) (u : str) (h h' : heap)
    (i : nat) (b : bool) :
  get_or_create k u h = (i, b, h') ->
  (b = false /\ h' = h) \/
  (b = true /\ i = length h /\ h' = h ++ [Percept k [] u None []]).
Proof.
  unfold get_or_create.
  destruct (list_find (fun p => kind p = k /\ percept_url p = u) h)
    as [[j p] |]; intros [= <- <- <-]; [left | right]; auto.
Qed.

(** What may leave the loop over the links: an exception of the page
    extractor. *)
Definition extract_raised (e : exn) : Prop :=
  exists u, extract u = Raise e.

(** One link: the percepts there were stay as they are. *)
Lemma attach_link_heap (a : attachments) (link : response) :
  (exists a', attach_link extract a link = Ok a' /\
              objects a `prefix_of` objects a') \/
  (exists e, attach_link extract a link = Raise e /\ extract_raised e).
Proof.
  unfold attach_link. destruct (is_image link).
  - left.
    destruct (get_or_create LinkedPicturePercept (url link) (objects a))
      as [[i b] h'] eqn:E.
    eexists. split; [reflexivity |]. simpl.
    destruct (get_or_create_prefix _ _ _ _ _ _ E) as [[_ ->] | (_ & _ & ->)];
      [reflexivity | apply prefix_app_r; reflexivity].
  - destruct (get_or_create LinkPercept (url link) (objects a))
      as [[i b] h'] eqn:E.
    destruct (extract (url link)) as [pg | e] eqn:Ex.
    + left. eexists. split; [reflexivity |]. simpl.
      destruct (get_or_create_prefix _ _ _ _ _ _ E)
        as [[-> ->] | (-> & -> & ->)]; [reflexivity |].
      eexists. apply alter_app_r_alt. reflexivity.
    + right. exists e. split; [reflexivity |]. exists (url link). exact Ex.
Qed.

Lemma attach_links_heap (links : list response) (a : attachments) :
  (exists a', attach_links extract a links = Ok a' /\
              objects a `prefix_of` objects a') \/
  (exists e, attach_links extract a links = Raise e /\ extract_raised e).
Proof.
  revert a. induction links as [| link links IH]; intros a; simpl.
  - left. exists a. split; reflexivity.
  - destruct (attach_link_heap a link) as [(a1 & -> & H1) | (e & -> & He)].
    + cbn [mbind result_bind].
      destruct (IH a1) as [(a2 & -> & H2) | (e & -> & He)].
      * left. exists a2. split; [reflexivity |]. etrans; eassumption.
      * right. exists e. split; [reflexivity | exact He].
    + right. exists e. split; [reflexivity | exact He].
Qed.

Lemma attach_tags_heap (tags : list str) (a : attachments) :
  objects a `prefix_of` objects (attach_tags a tags).
Proof.
  revert a. induction tags as [| tag tags IH]; intros a; simpl; [reflexivity |].
  etrans; [| apply IH]. simpl. apply prefix_app_r. reflexivity.
Qed.

Lemma attach_mentions_heap (mentions : list (str * nat)) (a : attachments) :
  objects a `prefix_of` objects (attach_mentions a mentions).
Proof.
  revert a. induction mentions as [| [t i] mentions IH]; intros a; simpl;
    [reflexivity |].
  etrans; [| apply IH]. simpl. apply prefix_app_r. reflexivity.
Qed.

End Heap.

(** X9: [process_attachments] returns, leaving the percepts that were
    there before as they were (a title is set on a newly made link
    percept only), unless an exception leaves it; and that is then one
    [requests.head] raised, other than [RequestException] and
    [ValueError], or one the page extractor raised. *)
Theorem process_attachments_returns_or_raised
    (head : list (str * outcome) -> str -> outcome)
    (identity_by_username : str -> option nat)
    (extract : str -> result page)
    (h : heap) (log : list (str * outcome)) (text : str) :
  (exists a,
     process_attachments head identity_by_username extract h log text = Ok a /\
     h `prefix_of` objects a) \/
  (exists e,
     process_attachments head identity_by_username extract h log text
       = Raise e /\
     (head_raised head e \/ extract_raised extract e)).
Proof.
  unfold process_attachments.
  destruct (find_tags_returns text) as [t ->]. cbn [mbind result_bind].
  set (a := attach_mentions _ _).
  assert (Ha : h `prefix_of` objects a).
  { subst a. etrans; [| apply attach_mentions_heap].
    apply (attach_tags_heap _ (Attachments t ∅ h)). }
  unfold find_links.
  destruct (check_candidates_text head t _ (findall_link_split t) []
              (LinksState [] ∅ t log) eq_refl)
    as [(st & k & w & Hst & _) | (e & He & Hr)];
    unfold find_links_state; rewrite ?Hst, ?He; cbn [mbind result_bind].
  - destruct (attach_links_heap extract (rv st)
                (Attachments (Helpers.text st) (percepts a) (objects a)))
      as [(a' & -> & Hp) | (e & -> & He)].
    + left. exists a'. split; [reflexivity |]. etrans; eassumption.
    + right. exists e. split; [reflexivity |]. right. exact He.
  - right. exists e. split; [reflexivity |]. left. exact Hr.
Qed.

(** What [get_or_create] answers with is a percept of the kind and the
    URL asked for, and the percepts there were stay as they are. *)
Lemma get_or_create_percept (k : percept_kind) (u : str) (h h' : heap)
    (i : nat) (b : bool) :
  get_or_create k u h = (i, b, h') ->
  h `prefix_of` h' /\
  exists p, h' !! i = Some p /\ kind p = k /\ percept_url p = u.
Proof.
  unfold get_or_create.
  destruct (list_find (fun p => kind p = k /\ percept_url p = u) h)
    as [[j p] |] eqn:E; intros [= <- <- <-].
  - apply list_find_Some in E as (Hj & [Hk Hu] & _).
    split; [reflexivity |]. exists p. auto.
  - split; [apply prefix_app_r; reflexivity |].
    exists (Percept k [] u None []). split; [| split; reflexivity].
    apply list_lookup_middle. reflexivity.
Qed.

(** X10: a link to an image is attached without a call of the page
    extractor, so this step cannot raise: a percept of kind
    [LinkedPicturePercept] with the URL of the link joins the set of
    percepts, the percepts there were stay as they are, a message that
    is not empty stays, and an empty one becomes what follows the last
    [/] of the URL, the whole URL when it has no [/]. *)
Theorem attach_link_image (extract : str -> result page)
    (a : attachments) (link : response) :
  is_image link = true ->
  exists a' i p,
    attach_link extract a link = Ok a' /\
    percepts a' = {[i]} ∪ percepts a /\
    objects a' !! i = Some p /\
    kind p = LinkedPicturePercept /\ percept_url p = url link /\
    objects a `prefix_of` objects a' /\
    (message a <> [] -> message a' = message a) /\
    (message a = [] ->
     ("/"%char ∉ message a') /\
     (message a' = url link \/
      exists q, url link = q ++ "/"%char :: message a')).
Proof.
  intros Himg. unfold attach_link. rewrite Himg.
  destruct (get_or_create LinkedPicturePercept (url link) (objects a))
    as [[i b] h'] eqn:E.
  destruct (get_or_create_percept _ _ _ _ _ _ E) as (Hpre & p & Hp & Hk & Hu).
  eexists _, i, p. split; [reflexivity |].
  cbn [message percepts objects]. split_and!; try assumption.
  - reflexivity.
  - intros Hm. destruct (message a); [congruence | reflexivity].
  - intros ->. cbn [length Nat.eqb].
    destruct (rfind_succ_spec (url link) "/") as [Hno [[E0 _] | (q & Hq & _)]].
    + split; [exact Hno |]. left. rewrite E0. reflexivity.
    + split; [exact Hno |]. right. exists q. exact Hq.
Qed.

Definition a_picture : response :=
  Response 200 [(s "content-type", s "image/png")] (s "http://a.com/pics/cat.png").

Lemma attach_link_image_witness :
  is_image a_picture = true /\
  exists a' i p,
    attach_link extract_fails (Attachments [] ∅ []) a_picture = Ok a' /\
    percepts a' = {[i]} ∪ percepts (Attachments [] ∅ []) /\
    objects a' !! i = Some p /\
    kind p = LinkedPicturePercept /\ percept_url p = url a_picture /\
    objects (Attachments [] ∅ []) `prefix_of` objects a' /\
    (message (Attachments [] ∅ []) <> [] ->
     message a' = message (Attachments [] ∅ [])) /\
    (message (Attachments [] ∅ []) = [] ->
     ("/"%char ∉ message a') /\
     (message a' = url a_picture \/
      exists q, url a_picture = q ++ "/"%char :: message a')).
Proof.
  split; [reflexivity |].
  apply (attach_link_image extract_fails (Attachments [] ∅ []) a_picture).
  reflexivity.
Defined.

(** The message of a lone picture link is its file name. *)
Example attach_link_image_filename :
  (a ← attach_link extract_fails (Attachments [] ∅ []) a_picture;
   Ok (message a)) = Ok (s "cat.png").
Proof. vm_compute. reflexivity. Qed.

End Helpers.

(** ** Promotion threshold ([Movement.required_votes]) *)

Module Votes.

Local Open Scope R_scope.

(** Python's [int(x)] on a float: truncation towards zero.  Floats are
    read as the real numbers they denote. *)
Definition py_int (x : R) : Z :=
  if Rle_dec 0 x then Int_part x else (- Int_part (- x))%Z.

(** [math.log(x, base)] is [log(x) / log(base)]. *)
Definition log (x base : R) : R := ln x / ln base.

(** The float expression under [int(...)] in [required_votes]. *)
Definition votes_expr (c : Z) : R :=
  IZR c / 100 + 0.8 / IZR c + log (IZR c) 1.65.

(** [rv = int(c / 100.0 + 0.8 / c + log(c, 1.65)) if c > 0 else 1] *)
Definition required_votes_of (c : Z) : Z :=
  if (0 <? c)%Z then py_int (votes_expr c) else 1%Z.

Lemma ln_165_pos : 0 < ln 1.65.
Proof. rewrite <- ln_1. apply ln_increasing; lra. Qed.

Lemma ln_ge_0 (x : R) : 1 <= x -> 0 <= ln x.
Proof.
  intros [H | <-]; [| rewrite ln_1; lra].
  left. rewrite <- ln_1. apply ln_increasing; lra.
Qed.

Lemma votes_expr_pos (c : Z) : (0 < c)%Z -> 0 < votes_expr c.
Proof.
  intros Hc. unfold votes_expr, log.
  assert (H1 : 1 <= IZR c) by (apply IZR_le; lia).
  assert (H2 : 0 <= ln (IZR c)) by (apply ln_ge_0; exact H1).
  pose proof ln_165_pos as H3.
  assert (0 <= ln (IZR c) / ln 1.65).
  { apply Rmult_le_pos; [exact H2 | left; apply Rinv_0_lt_compat; exact H3]. }
  assert (0 < 0.8 / IZR c).
  { apply Rdiv_lt_0_compat; lra. }
  assert (0 < IZR c / 100) by lra.
  lra.
Qed.

(** Bounding [log c 1.65] by a rational [p/q] through integer powers. *)
Lemma log_lower (c : R) (p q : nat) :
  0 < c -> (0 < q)%nat -> 1.65 ^ p <= c ^ q -> INR p / INR q <= log c 1.65.
Proof.
  intros Hc Hq Hpow. unfold log.
  pose proof ln_165_pos as H3.
  assert (Hq' : 0 < INR q) by (apply lt_0_INR; exact Hq).
  assert (Hln : INR p * ln 1.65 <= INR q * ln c).
  { rewrite <- !ln_pow by lra.
    destruct Hpow as [Hlt | Heq].
    - left. apply ln_increasing; [apply pow_lt; lra | exact Hlt].
    - rewrite Heq. lra. }
  apply Rmult_le_reg_r with (r := INR q * ln 1.65).
  - apply Rmult_lt_0_compat; assumption.
  - field_simplify; lra.
Qed.

Lemma log_upper (c : R) (p q : nat) :
  0 < c -> (0 < q)%nat -> c ^ q < 1.65 ^ p -> log c 1.65 < INR p / INR q.
Proof.
  intros Hc Hq Hpow. unfold log.
  pose proof ln_165_pos as H3.
  assert (Hq' : 0 < INR q) by (apply lt_0_INR; exact Hq).
  assert (Hln : INR q * ln c < INR p * ln 1.65).
  { rewrite <- !ln_pow by lra.
    apply ln_increasing; [apply pow_lt; lra | exact Hpow]. }
  apply Rmult_lt_reg_r with (r := INR q * ln 1.65).
  - apply Rmult_lt_0_compat; assumption.
  - field_simplify; lra.
Qed.

Lemma Int_part_between (x : R) (n : Z) :
  IZR n <= x < IZR n + 1 -> Int_part x = n.
Proof.
  intros [Hlo Hhi]. symmetry. apply Int_part_spec. lra.
Qed.

Lemma py_int_between (x : R) (n : Z) :
  (0 <= n)%Z -> IZR n <= x < IZR n + 1 -> py_int x = n.
Proof.
  intros Hn [Hlo Hhi]. unfold py_int.
  assert (0 <= IZR n) by (apply IZR_le; exact Hn).
  destruct (Rle_dec 0 x) as [_ | Hneg]; [| lra].
  apply Int_part_between. lra.
Qed.

(** On a positive member count the truncation is the floor. *)
Lemma py_int_floor (x : R) : 0 <= x -> py_int x = Int_part x.
Proof.
  intros Hx. unfold py_int. destruct (Rle_dec 0 x); [reflexivity | lra].
Qed.

Ltac log_bounds c p q p' q' :=
  let Hlo := fresh "Hlo" in
  let Hhi := fresh "Hhi" in
  assert (Hlo : INR p / INR q <= log c 1.65)
    by (apply log_lower; [lra | lia | simpl pow; lra]);
  assert (Hhi : log c 1.65 < INR p' / INR q')
    by (apply log_upper; [lra | lia | simpl pow; lra]);
  repeat rewrite INR_IZR_INZ in Hlo; repeat rewrite INR_IZR_INZ in Hhi;
  cbv [Z.of_nat Pos.of_succ_nat Pos.succ] in Hlo, Hhi.

Ltac votes_value :=
  unfold required_votes_of; simpl Z.ltb; cbv iota;
  apply py_int_between; [lia | unfold votes_expr; lra].

Lemma required_votes_1 : required_votes_of 1 = 0%Z.
Proof.
  unfold required_votes_of; simpl Z.ltb; cbv iota.
  apply py_int_between; [lia |].
  unfold votes_expr, log. rewrite ln_1. lra.
Qed.

Lemma required_votes_2 : required_votes_of 2 = 1%Z.
Proof. log_bounds 2 1%nat 1%nat 3%nat 2%nat. votes_value. Qed.

Lemma required_votes_5 : required_votes_of 5 = 3%Z.
Proof. log_bounds 5 3%nat 1%nat 7%nat 2%nat. votes_value. Qed.

Lemma required_votes_10 : required_votes_of 10 = 4%Z.
Proof. log_bounds 10 4%nat 1%nat 19%nat 4%nat. votes_value. Qed.

Lemma required_votes_50 : required_votes_of 50 = 8%Z.
Proof. log_bounds 50 15%nat 2%nat 8%nat 1%nat. votes_value. Qed.

Lemma required_votes_100 : required_votes_of 100 = 10%Z.
Proof. log_bounds 100 9%nat 1%nat 19%nat 2%nat. votes_value. Qed.

Lemma required_votes_500 : required_votes_of 500 = 17%Z.
Proof. log_bounds 500 12%nat 1%nat 25%nat 2%nat. votes_value. Qed.

(** Floats for reals: at the seven member counts the expression stays
    so far from an integer that any value within a tenth of it, far more
    than the rounding of a float computation, truncates to the same
    number of votes. *)
Ltac votes_rounding :=
  cbv zeta; unfold votes_expr; intros x Hx;
  apply py_int_between; [lia | lra].

Lemma required_votes_rounding (c : Z) :
  In c [1; 2; 5; 10; 50; 100; 500]%Z ->
  forall x, votes_expr c - 1 / 10 <= x <= votes_expr c + 1 / 10 ->
            py_int x = required_votes_of c.
Proof.
  intros Hc.
  repeat (destruct Hc as [<- | Hc]); [ .. | destruct Hc ].
  - rewrite required_votes_1. unfold votes_expr, log. rewrite ln_1.
    intros x Hx. apply py_int_between; [lia | lra].
  - rewrite required_votes_2. log_bounds 2 1%nat 1%nat 7%nat 5%nat.
    votes_rounding.
  - rewrite required_votes_5. log_bounds 5 3%nat 1%nat 7%nat 2%nat.
    votes_rounding.
  - rewrite required_votes_10. log_bounds 10 4%nat 1%nat 14%nat 3%nat.
    votes_rounding.
  - rewrite required_votes_50. log_bounds 50 38%nat 5%nat 8%nat 1%nat.
    votes_rounding.
  - rewrite required_votes_100. log_bounds 100 91%nat 10%nat 19%nat 2%nat.
    votes_rounding.
  - rewrite required_votes_500. log_bounds 500 49%nat 4%nat 25%nat 2%nat.
    votes_rounding.
Qed.

(** On a member count above zero the value is the floor of the
    expression. *)
Lemma required_votes_of_floor (c : Z) :
  required_votes_of c =
  if (0 <? c)%Z then Int_part (votes_expr c) else 1%Z.
Proof.
  unfold required_votes_of. destruct (0 <? c)%Z eqn:E; [| reflexivity].
  apply py_int_floor. left. apply votes_expr_pos. lia.
Qed.

Lemma required_votes_table :
  map required_votes_of [1; 2; 5; 10; 50; 100; 500]%Z
  = [0; 1; 3; 4; 8; 10; 17]%Z.
Proof.
  cbn [map].
  rewrite required_votes_1, required_votes_2, required_votes_5,
    required_votes_10, required_votes_50, required_votes_100,
    required_votes_500.
  reflexivity.
Qed.

(** *** The threshold as the movement grows *)

Lemma Int_part_le (x y : R) : x <= y -> (Int_part x <= Int_part y)%Z.
Proof.
  intros H.
  destruct (base_Int_part x) as [Hx _]. destruct (base_Int_part y) as [_ Hy].
  assert (Hlt : IZR (Int_part x) < IZR (Int_part y + 1))
    by (rewrite plus_IZR; lra).
  apply lt_IZR in Hlt. lia.
Qed.

Lemma ln_lower (y : R) : 0 < y -> 1 - / y <= ln y.
Proof.
  intros Hy. pose proof (exp_ineq1_le (- ln y)) as H.
  rewrite exp_Ropp, exp_ln in H by exact Hy. lra.
Qed.

Lemma ln_165_lt_1 : ln 1.65 < 1.
Proof.
  pose proof (exp_ineq1 1 ltac:(lra)) as H.
  rewrite <- (ln_exp 1). apply ln_increasing; lra.
Qed.

(** One more member never lowers the expression: the logarithm grows by
    at least [1 / (c + 1)], more than [0.8 / c] falls. *)
Lemma votes_expr_step (c : Z) :
  (1 <= c)%Z -> votes_expr c <= votes_expr (c + 1).
Proof.
  intros Hc. unfold votes_expr, log. rewrite plus_IZR.
  set (x := IZR c). assert (Hx : 1 <= x) by (apply IZR_le; lia).
  pose proof ln_165_pos as HL0. pose proof ln_165_lt_1 as HL1.
  assert (Hln : / (x + 1) <= ln (x + 1) - ln x).
  { pose proof (ln_lower ((x + 1) * / x)) as H.
    rewrite ln_mult, ln_Rinv in H by
      (try apply Rinv_0_lt_compat; lra).
    assert (E : 1 - / ((x + 1) * / x) = / (x + 1)) by (field; lra).
    rewrite E in H. apply H.
    apply Rmult_lt_0_compat; [| apply Rinv_0_lt_compat]; lra. }
  assert (Hb : 0 < / (x + 1)) by (apply Rinv_0_lt_compat; lra).
  assert (Ha : 0 < / x <= 1).
  { split; [apply Rinv_0_lt_compat; lra |].
    rewrite <- Rinv_1. apply Rinv_le_contravar; lra. }
  assert (Hab : / x - / (x + 1) = / x * / (x + 1)) by (field; lra).
  assert (HiL : 1 <= / ln 1.65).
  { rewrite <- Rinv_1. apply Rinv_le_contravar; lra. }
  set (D := ln (x + 1) - ln x) in *.
  assert (HD : D <= D * / ln 1.65) by nra.
  assert (Hsplit : ln (x + 1) / ln 1.65 - ln x / ln 1.65 = D * / ln 1.65)
    by (subst D; unfold Rdiv; ring).
  assert (Hfall : 0.8 / x - 0.8 / (x + 1) <= 0.8 * / (x + 1)).
  { unfold Rdiv. replace (0.8 * / x - 0.8 * / (x + 1))
      with (0.8 * (/ x - / (x + 1))) by ring.
    rewrite Hab. nra. }
  unfold Rdiv in *. lra.
Qed.

Lemma votes_expr_mono (c c' : Z) :
  (1 <= c <= c')%Z -> votes_expr c <= votes_expr c'.
Proof.
  intros [Hc Hle].
  replace c' with (c + Z.of_nat (Z.to_nat (c' - c)))%Z by lia.
  induction (Z.to_nat (c' - c)) as [| n IH].
  - rewrite Z.add_0_r. lra.
  - rewrite Nat2Z.inj_succ, <- Z.add_1_r, Z.add_assoc.
    etransitivity; [exact IH |]. apply votes_expr_step. lia.
Qed.

(** X11: among movements with members, a larger one never needs fewer
    votes for a promotion. *)
Theorem required_votes_of_mono (c c' : Z) :
  (1 <= c <= c')%Z -> (required_votes_of c <= required_votes_of c')%Z.
Proof.
  intros H. rewrite !required_votes_of_floor.
  replace (0 <? c)%Z with true by (symmetry; apply Z.ltb_lt; lia).
  replace (0 <? c')%Z with true by (symmetry; apply Z.ltb_lt; lia).
  apply Int_part_le, votes_expr_mono, H.
Qed.

Lemma required_votes_of_mono_witness :
  (1 <= 2 <= 5)%Z /\ (required_votes_of 2 <= required_votes_of 5)%Z.
Proof.
  assert (H : (1 <= 2 <= 5)%Z) by lia.
  split; [exact H | apply (required_votes_of_mono 2 5 H)].
Defined.

(** X12: the threshold is never negative, and it is zero for a movement
    of exactly one member and for no other: there a thought is promoted
    without any vote, while a movement without members asks for one. *)
Theorem required_votes_of_zero (c : Z) :
  (0 <= required_votes_of c)%Z /\ (required_votes_of c = 0%Z <-> c = 1%Z).
Proof.
  destruct (Z.lt_trichotomy c 1) as [Hc | [-> | Hc]].
  - unfold required_votes_of.
    replace (0 <? c)%Z with false by (symmetry; apply Z.ltb_ge; lia).
    split; [lia |]. split; [discriminate | lia].
  - rewrite required_votes_1. split; [lia |]. split; reflexivity.
  - assert (H : (1 <= required_votes_of c)%Z).
    { rewrite <- required_votes_2. rewrite !required_votes_of_floor.
      replace (0 <? c)%Z with true by (symmetry; apply Z.ltb_lt; lia).
      replace (0 <? 2)%Z with true by reflexivity.
      apply Int_part_le, votes_expr_mono. lia. }
    split; [lia |]. split; lia.
Qed.

End Votes.

(** ** Movements, membership and promotion ([nucleus/identity.py]) *)

Module Identity.

(** The 32-character identifiers of the models, taken as opaque keys. *)
Definition ident := nat.

(** A row of [movementmember_association]. *)
Record membership := Membership {
  mma_movement : ident;
  mma_persona : option ident;
  mma_active : bool;
  mma_role : string;
  mma_invitation_code : option string
}.

(** The columns of [Movement] the modelled methods read, with the ids
    of its two mindsets. *)
Record movement := Movement {
  movement_id : ident;
  username : string;
  private : bool;
  admin_id : ident;
  blog_id : ident;
  mindspace_id : ident
}.

(** A [Mindset] row: its kind ("blog", "mindspace", ...) and author. *)
Record mindset := Mindset {
  mindset_kind : string;
  mindset_author : ident
}.

(** A [Thought]: the attributes [promotion_check] and [clone] touch. *)
Record thought := Thought {
  author : ident;
  parent : option ident;
  thought_mindset : option ident;
  thought_kind : string;
  thought_state : Z;
  created : Z;
  thought_text : string;
  percept_assocs : list (ident * ident);
  blogged : bool
}.

(** The memoized results, one map per decorated method, keyed by the
    instance the method was called on.  Expiry by time is not modelled:
    an entry stays until it is deleted. *)
Record memo := Memo {
  member_count_memo : gmap ident Z;
  movements_memo : gmap ident (list (ident * string));
  repost_mindsets_memo : gmap ident (list ident);
  frontpage_sources_memo : gmap ident (list ident)
}.

(** Database, cache and ambient context. *)
Record world := World {
  movement_table : list movement;
  members : list membership;
  blogs_followed : gmap ident (list ident);
  mindsets : gmap ident mindset;
  thoughts : gmap ident thought;
  cache : memo;
  active_persona : ident;
  next_uuid : ident;
  utcnow : Z;
  chat : list (ident * string)
}.

Definition upd_members (f : list membership -> list membership) (w : world)
  : world :=
  World (movement_table w) (f (members w)) (blogs_followed w) (mindsets w)
    (thoughts w) (cache w) (active_persona w) (next_uuid w) (utcnow w) (chat w).

Definition upd_blogs_followed
    (f : gmap ident (list ident) -> gmap ident (list ident)) (w : world)
  : world :=
  World (movement_table w) (members w) (f (blogs_followed w)) (mindsets w)
    (thoughts w) (cache w) (active_persona w) (next_uuid w) (utcnow w) (chat w).

Definition upd_thoughts (f : gmap ident thought -> gmap ident thought)
    (w : world) : world :=
  World (movement_table w) (members w) (blogs_followed w) (mindsets w)
    (f (thoughts w)) (cache w) (active_persona w) (next_uuid w) (utcnow w)
    (chat w).

Definition upd_cache (f : memo -> memo) (w : world) : world :=
  World (movement_table w) (members w) (blogs_followed w) (mindsets w)
    (thoughts w) (f (cache w)) (active_persona w) (next_uuid w) (utcnow w)
    (chat w).

(** Logging in as another persona: [current_user.active_persona]. *)
Definition with_active_persona (a : ident) (w : world) : world :=
  World (movement_table w) (members w) (blogs_followed w) (mindsets w)
    (thoughts w) (cache w) a (next_uuid w) (utcnow w) (chat w).

Definition send_chat (room : ident) (message : string) (w : world) : world :=
  World (movement_table w) (members w) (blogs_followed w) (mindsets w)
    (thoughts w) (cache w) (active_persona w) (next_uuid w) (utcnow w)
    (chat w ++ [(room, message)]).

(** [uuid4().hex]: an identifier not handed out before. *)
Definition uuid4 (w : world) : ident * world :=
  (next_uuid w,
   World (movement_table w) (members w) (blogs_followed w) (mindsets w)
     (thoughts w) (cache w) (active_persona w) (S (next_uuid w)) (utcnow w)
     (chat w)).

Definition upd_member_count_memo (f : gmap ident Z -> gmap ident Z) (c : memo)
  : memo :=
  Memo (f (member_count_memo c)) (movements_memo c) (repost_mindsets_memo c)
    (frontpage_sources_memo c).

Definition upd_movements_memo
    (f : gmap ident (list (ident * string)) -> gmap ident (list (ident * string)))
    (c : memo) : memo :=
  Memo (member_count_memo c) (f (movements_memo c)) (repost_mindsets_memo c)
    (frontpage_sources_memo c).

Definition upd_repost_mindsets_memo
    (f : gmap ident (list ident) -> gmap ident (list ident)) (c : memo) : memo :=
  Memo (member_count_memo c) (movements_memo c) (f (repost_mindsets_memo c))
    (frontpage_sources_memo c).

Definition upd_frontpage_sources_memo
    (f : gmap ident (list ident) -> gmap ident (list ident)) (c : memo) : memo :=
  Memo (member_count_memo c) (movements_memo c) (repost_mindsets_memo c)
    (f (frontpage_sources_memo c)).

(** *** [Movement.member_count] and [Movement.required_votes] *)

(** The query of [member_count]: rows of this movement with
    [active=True]. *)
Definition count_active_members (w : world) (m : ident) : Z :=
  Z.of_nat
    (length (filter (fun r => mma_movement r = m /\ mma_active r = true)
               (members w))).

(** [@cache.memoize] around [member_count]. *)
Definition member_count (w : world) (m : ident) : Z * world :=
  match member_count_memo (cache w) !! m with
  | Some rv => (rv, w)
  | None =>
      let rv := count_active_members w m in
      (rv, upd_cache (upd_member_count_memo <[m := rv]>) w)
  end.

Definition required_votes (w : world) (m : ident) : Z * world :=
  let '(c, w') := member_count w m in
  (Votes.required_votes_of c, w').

(** *** [Persona.movements] *)

(** [order_by(Movement.username)] *)
Fixpoint insert_by_username (m : movement) (l : list movement)
  : list movement :=
  match l with
  | [] => [m]
  | m' :: l' =>
      if String.leb (username m) (username m')
      then m :: l
      else m' :: insert_by_username m l'
  end.

Definition order_by_username (l : list movement) : list movement :=
  foldr insert_by_username [] l.

(** An active membership row of persona [a] in movement [m]. *)
Definition active_member (w : world) (m a : ident) : Prop :=
  exists r, r ∈ members w /\
            mma_movement r = m /\ mma_persona r = Some a /\ mma_active r = true.

#[global] Instance active_member_dec (w : world) (m a : ident) :
  Decision (active_member w m a).
Proof.
  refine (cast_if (decide (Exists
            (fun r => mma_movement r = m /\ mma_persona r = Some a /\
                      mma_active r = true) (members w))));
    unfold active_member; rewrite Exists_exists in *; naive_solver.
Defined.

(** The query of [movements]: movements joined with the active
    membership rows of persona [a], ordered by username, as dicts with
    the keys [id] and [username]. *)
Definition movements_of (w : world) (a : ident) : list (ident * string) :=
  map (fun m => (movement_id m, username m))
      (order_by_username
         (filter (fun m => active_member w (movement_id m) a)
                 (movement_table w))).

(** [@cache.memoize] around [movements]: the key is the instance
    [self], the query asks for [current_user.active_persona]. *)
Definition movements (w : world) (self : ident)
  : list (ident * string) * world :=
  match movements_memo (cache w) !! self with
  | Some rv => (rv, w)
  | None =>
      let rv := movements_of w (active_persona w) in
      (rv, upd_cache (upd_movements_memo <[self := rv]>) w)
  end.

(** *** [Persona.toggle_following] *)

(** [l.remove(x)]: the list without the first [x], [ValueError] when
    there is none. *)
Fixpoint remove_first (x : ident) (l : list ident) : option (list ident) :=
  match l with
  | [] => None
  | y :: l' =>
      if decide (x = y) then Some l'
      else option_map (cons y) (remove_first x l')
  end.

Definition followed (w : world) (self : ident) : list ident :=
  default [] (blogs_followed w !! self).

Definition toggle_following (w : world) (self ident_ : ident) : bool * world :=
  let '(following, l) :=
    match remove_first ident_ (followed w self) with
    | Some l => (false, l)
    | None => (true, followed w self ++ [ident_])
    end in
  (following,
   upd_cache (upd_frontpage_sources_memo (delete self))
     (upd_blogs_followed <[self := l]> w)).

(** *** [Persona.toggle_movement_membership] *)

(** [invitation_code and len(invitation_code) > 0] *)
Definition has_code (invitation_code : option string) : bool :=
  match invitation_code with
  | Some c => (0 <? String.length c)%nat
  | None => false
  end.

(** The two [.first()] queries: the position and the row found. *)
Definition find_membership (w : world) (self : ident) (m : movement)
    (invitation_code : option string) : option (nat * membership) :=
  if has_code invitation_code
  then list_find (fun r => mma_invitation_code r = invitation_code) (members w)
  else list_find (fun r => mma_movement r = movement_id m /\
                           mma_persona r = Some self) (members w).

(** The four [cache.delete_memoized] calls at the end. *)
Definition reset_caches (self m : ident) (c : memo) : memo :=
  upd_frontpage_sources_memo (delete self)
    (upd_repost_mindsets_memo (delete self)
       (upd_movements_memo (delete self)
          (upd_member_count_memo (delete m) c))).

(** [toggle_movement_membership(self, movement, role, invitation_code)];
    what a raising call leaves behind is not modelled. *)
Definition toggle_movement_membership (w : world) (self : ident)
    (m : movement) (role : string) (invitation_code : option string)
  : result (membership * world) :=
  let mma := find_membership w self m invitation_code in
  let inactive :=
    match mma with
    | Some (_, r) => negb (mma_active r)
    | None => true
    end in
  (* Follow movement when joining *)
  let w1 :=
    if bool_decide (movement_id m ∉ followed w self) && inactive
    then snd (toggle_following w self (movement_id m))
    else w in
  (* Validate invitation code *)
  let unvalidated :=
    match mma with
    | Some (_, r) =>
        negb (mma_active r) &&
        negb (bool_decide (mma_invitation_code r = invitation_code))
    | None => true
    end in
  if unvalidated && private m &&
     negb (bool_decide (active_persona w = admin_id m))
  then Raise UnauthorizedError
  else
    r ← match mma with
        | None =>
            Ok (Membership (movement_id m) (Some self) true role None,
                upd_members
                  (fun t => t ++ [Membership (movement_id m) (Some self)
                                    true role None]) w1)
        | Some (i, r) =>
            if negb (mma_active r)
            then
              let r' := Membership (mma_movement r) (mma_persona r) true role
                          (mma_invitation_code r) in
              Ok (r', upd_members <[i := r']> w1)
            else if bool_decide (self = admin_id m)
            then Raise NotImplementedError
            else
              let r' := Membership (mma_movement r) (mma_persona r) false
                          "left" (mma_invitation_code r) in
              Ok (r', upd_members <[i := r']> w1)
        end;
    (* Reset caches *)
    Ok (r.1, upd_cache (reset_caches self (movement_id m)) r.2).

(** *** [Movement.promotion_check] *)

(** Modelled from the spec: [Thought.upvote_count] is defined in
    [content.py], which is not among the sources.  The spec gives it as
    the number of active upvote-kind children of the node; a node is
    active when its state is not negative. *)
Definition upvote_count (w : world) (t : ident) : Z :=
  Z.of_nat
    (length (filter (fun kv => thought_kind kv.2 = "upvote" /\
                               parent kv.2 = Some t /\
                               (0 <= thought_state kv.2)%Z)
               (map_to_list (thoughts w)))).

(** Modelled from the spec: [Thought.clone] is defined in [content.py],
    which is not among the sources.  The spec and [test_clone] give the
    clone as a new node that shares text and attachments with the
    original, has a new identifier and the time of the call as its
    timestamp, is parented to the original, is authored by the given
    identity (as are its attachments) and lies in the given mindset. *)
Definition clone (w : world) (t : ident) (th : thought)
    (new_author new_mindset : ident) : ident * world :=
  let '(c, w1) := uuid4 w in
  (c,
   upd_thoughts
     <[c := Thought new_author (Some t) (Some new_mindset) (thought_kind th)
              (thought_state th) (utcnow w) (thought_text th)
              (map (fun pa => (pa.1, new_author)) (percept_assocs th))
              false]> w1).

(** [content.Upvote(id=..., author=self, parent=clone, state=0)] *)
Definition new_upvote (w : world) (m clone_id : ident) : thought :=
  Thought m (Some clone_id) None "upvote" 0 (utcnow w) "" [] false.

Definition set_blogged (th : thought) : thought :=
  Thought (author th) (parent th) (thought_mindset th) (thought_kind th)
    (thought_state th) (created th) (thought_text th) (percept_assocs th) true.

(** [thought.mindset and thought.mindset.kind == "mindspace"] *)
Definition in_mindspace (w : world) (th : thought) : bool :=
  match thought_mindset th with
  | Some ms =>
      match mindsets w !! ms with
      | Some k => bool_decide (mindset_kind k = "mindspace")
      | None => false
      end
  | None => false
  end.

(** What the promotion does once the votes suffice. *)
Definition promote (w : world) (m : movement) (t : ident) (th : thought)
  : ident * world :=
  let '(c, w2) := clone w t th (movement_id m) (blog_id m) in
  let '(u, w3) := uuid4 w2 in
  let w4 := upd_thoughts <[u := new_upvote w3 (movement_id m) c]> w3 in
  let w5 := upd_thoughts (alter set_blogged t) w4 in
  (c, send_chat (mindspace_id m) "New promotion! Check the blog" w5).

(** [promotion_check(self, thought)]; the thought is given by its key
    in the store, and a key without a node promotes nothing. *)
Definition promotion_check (w : world) (m : movement) (t : ident)
  : option ident * world :=
  match thoughts w !! t with
  | None => (None, w)
  | Some th =>
      if negb (blogged th) && in_mindspace w th
      then
        let '(votes, w1) := required_votes w (movement_id m) in
        if (votes <=? upvote_count w1 t)%Z
        then let '(c, w') := promote w1 m t th in (Some c, w')
        else (None, w1)
      else (None, w)
  end.

(** *** Facts about the promotion threshold *)

(** C2, amended: [required_votes] is the floor of
    [c/100 + 0.8/c + log(c)/log(1.65)] when [c > 0] and 1 otherwise,
    for the count [c] that [member_count] returns: the memoized count
    when one is memoized, and the number of active membership rows of
    the movement only when none is; the call memoizes [c] and changes no
    row.  Over the member counts 1, 2, 5, 10, 50, 100, 500 the values
    0, 1, 3, 4, 8, 10, 17 do not decrease. *)
Theorem required_votes_spec (w : world) (m : ident) :
  let c := (member_count w m).1 in
  (match member_count_memo (cache w) !! m with
   | Some rv => c = rv
   | None =>
       c = Z.of_nat
             (length (filter (fun r => mma_movement r = m /\
                                       mma_active r = true)
                        (members w)))
   end) /\
  (required_votes w m).1 =
    (if (0 <? c)%Z then Int_part (Votes.votes_expr c) else 1%Z) /\
  member_count_memo (cache (required_votes w m).2) !! m = Some c /\
  members (required_votes w m).2 = members w /\
  Votes.required_votes_of 0 = 1%Z /\
  map Votes.required_votes_of [1; 2; 5; 10; 50; 100; 500]%Z
    = [0; 1; 3; 4; 8; 10; 17]%Z /\
  Sorted Z.le (map Votes.required_votes_of [1; 2; 5; 10; 50; 100; 500]%Z).
Proof.
  cbv zeta. split_and!.
  - unfold member_count.
    destruct (member_count_memo (cache w) !! m); reflexivity.
  - unfold required_votes. destruct (member_count w m) as [c w'].
    cbn [fst]. apply Votes.required_votes_of_floor.
  - unfold required_votes, member_count.
    destruct (member_count_memo (cache w) !! m) as [rv |] eqn:E; cbn.
    + exact E.
    + apply lookup_insert_eq.
  - unfold required_votes, member_count.
    destruct (member_count_memo (cache w) !! m); reflexivity.
  - reflexivity.
  - apply Votes.required_votes_table.
  - rewrite Votes.required_votes_table.
    repeat (constructor; try lia).
Qed.

(** *** Facts about the cached movement list *)

Lemma movements_miss (w : world) (self : ident) :
  movements_memo (cache w) !! self = None ->
  movements w self =
  (movements_of w (active_persona w),
   upd_cache
     (upd_movements_memo <[self := movements_of w (active_persona w)]>) w).
Proof. intros H. unfold movements. rewrite H. reflexivity. Qed.

(** A public movement with its admin, persona 1, as a member, and
    persona 2 as a second member; persona 3 is logged in. *)
Definition a_movement : movement := Movement 10 "movement" false 1 12 11.

Definition two_members : world :=
  World [a_movement]
    [Membership 10 (Some 1) true "admin" None;
     Membership 10 (Some 2) true "member" None]
    ∅
    {[11 := Mindset "mindspace" 10; 12 := Mindset "blog" 10;
      21 := Mindset "mindspace" 2]}
    ∅ (Memo ∅ ∅ ∅ ∅) 3 100 1000 [].

(** Two runs of [movements] on persona 2 that differ only in who is
    logged in. *)
Example movements_differ_by_login :
  (movements (with_active_persona 3 two_members) 2).1 = [] /\
  (movements (with_active_persona 2 two_members) 2).1 = [(10, "movement")].
Proof. split; vm_compute; reflexivity. Qed.

(** *** Facts about [toggle_movement_membership] *)

Lemma reset_caches_lookup (self m : ident) (c : memo) :
  member_count_memo (reset_caches self m c) !! m = None /\
  movements_memo (reset_caches self m c) !! self = None /\
  repost_mindsets_memo (reset_caches self m c) !! self = None /\
  frontpage_sources_memo (reset_caches self m c) !! self = None.
Proof. cbn. split_and!; apply lookup_delete_eq. Qed.

(** A call that returns has deleted the four memoized entries. *)
Lemma toggle_resets_caches (w w' : world) (self : ident) (m : movement)
    (role : string) (code : option string) (r : membership) :
  toggle_movement_membership w self m role code = Ok (r, w') ->
  member_count_memo (cache w') !! movement_id m = None /\
  movements_memo (cache w') !! self = None /\
  repost_mindsets_memo (cache w') !! self = None /\
  frontpage_sources_memo (cache w') !! self = None.
Proof.
  unfold toggle_movement_membership.
  destruct (_ && _ && _); [discriminate |].
  match goal with
  | |- (mbind _ ?x) = _ -> _ => destruct x as [[r0 w0] | e]
  end; [| discriminate].
  cbn. intros [= <- <-]. apply reset_caches_lookup.
Qed.

Lemma toggle_following_login (w : world) (self x : ident) :
  active_persona (toggle_following w self x).2 = active_persona w.
Proof.
  unfold toggle_following. destruct (remove_first x (followed w self));
    reflexivity.
Qed.

Lemma toggle_keeps_login (w w' : world) (self : ident) (m : movement)
    (role : string) (code : option string) (r : membership) :
  toggle_movement_membership w self m role code = Ok (r, w') ->
  active_persona w' = active_persona w.
Proof.
  unfold toggle_movement_membership.
  destruct (_ && _ && _); [discriminate |].
  destruct (find_membership w self m code) as [[i r0] |].
  - destruct (negb (mma_active r0)).
    + cbn. intros [= <- <-]. cbn.
      destruct (_ && _); [apply toggle_following_login | reflexivity].
    + destruct (bool_decide (self = admin_id m)); [discriminate |].
      cbn. intros [= <- <-]. cbn.
      destruct (_ && _); [apply toggle_following_login | reflexivity].
  - cbn. intros [= <- <-]. cbn.
      destruct (_ && _); [apply toggle_following_login | reflexivity].
Qed.

(** When the persona that toggles is the one logged in, the next read
    of its movement list is computed anew from the memberships as the
    call left them. *)
Lemma toggle_then_movements_own (w w' : world) (self : ident) (m : movement)
    (role : string) (code : option string) (r : membership) :
  active_persona w = self ->
  toggle_movement_membership w self m role code = Ok (r, w') ->
  (movements w' self).1 = movements_of w' self.
Proof.
  intros Hself H.
  destruct (toggle_resets_caches _ _ _ _ _ _ _ H) as (_ & Hmiss & _).
  rewrite (movements_miss _ _ Hmiss). cbn [fst].
  rewrite (toggle_keeps_login _ _ _ _ _ _ _ H), Hself. reflexivity.
Qed.

(** Persona 2 is not yet a member, an empty movement list is memoized
    for it, and persona 3 is logged in. *)
Definition before_joining : world :=
  World [a_movement]
    [Membership 10 (Some 1) true "admin" None]
    ∅
    {[11 := Mindset "mindspace" 10; 12 := Mindset "blog" 10]}
    ∅ (Memo ∅ {[2 := []]} ∅ ∅) 3 100 1000 [].

(** C9 at a failing input: persona 2 joins the movement while persona 3
    is logged in.  The call returns, the membership row of persona 2 is
    active and the memoized list of persona 2 is deleted; but the next
    read of persona 2's movement list is computed for persona 3 and is
    empty, so it does not show the new membership. *)
Theorem toggle_then_movements_other_login :
  exists r w',
    toggle_movement_membership before_joining 2 a_movement "member" None
      = Ok (r, w') /\
    active_member w' 10 2 /\
    movements_memo (cache w') !! 2 = None /\
    movements_of w' 2 = [(10, "movement")] /\
    (movements w' 2).1 = [].
Proof.
  eexists. eexists. split; [vm_compute; reflexivity |].
  split_and!.
  - apply (bool_decide_unpack (active_member _ 10 2)). vm_compute.
    reflexivity.
  - vm_compute. reflexivity.
  - vm_compute. reflexivity.
  - vm_compute. reflexivity.
Qed.

(** *** A member count that is out of date *)

Definition b_movement : movement := Movement 20 "other" false 5 22 21.

(** Movement 10 has one active member, its admin; persona 2 holds an
    invitation to it with the code "abc" and is logged in. *)
Definition invited : world :=
  World [a_movement; b_movement]
    [Membership 10 (Some 1) true "admin" None;
     Membership 10 (Some 2) false "member" (Some "abc")]
    ∅ ∅ ∅ (Memo ∅ ∅ ∅ ∅) 2 100 1000 [].

(** C2, as the claim states it, fails: the member count of movement 10
    is read and memoized as 1; persona 2 then toggles its membership in
    movement 20 with the invitation code of movement 10.  The row found
    by the code is the one of movement 10, which becomes active, and the
    memoized count that is deleted is the one of movement 20.  Movement
    10 now has two active members, for which the formula gives 1, and
    [required_votes] still gives 0, the value for the memoized 1. *)
Lemma required_votes_stale_count :
  exists r w',
    toggle_movement_membership (member_count invited 10).2 2 b_movement
      "member" (Some "abc") = Ok (r, w') /\
    Z.of_nat
      (length (filter (fun r => mma_movement r = 10 /\ mma_active r = true)
                 (members w'))) = 2%Z /\
    (required_votes w' 10).1 = 0%Z /\
    (if (0 <? 2)%Z then Int_part (Votes.votes_expr 2) else 1%Z) = 1%Z.
Proof.
  eexists. eexists. split; [vm_compute; reflexivity |].
  split; [vm_compute; reflexivity |]. split.
  - unfold required_votes.
    match goal with
    | |- (let '(c, w') := member_count ?w 10 in _).1 = _ =>
        replace (member_count w 10) with (1%Z, w) by (vm_compute; reflexivity)
    end.
    cbn [fst]. apply Votes.required_votes_1.
  - rewrite <- Votes.required_votes_2. symmetry.
    apply Votes.required_votes_of_floor.
Qed.

(** *** Facts about [promotion_check] *)

(** Reading the threshold changes the cache at most. *)
Lemma required_votes_world (w : world) (m : ident) :
  exists f, (required_votes w m).2 = upd_cache f w.
Proof.
  unfold required_votes, member_count.
  destruct (member_count_memo (cache w) !! m); cbn.
  - exists (fun c => c). destruct w; reflexivity.
  - eexists. reflexivity.
Qed.

(** The identifiers [uuid4] hands out are not in use. *)
Definition fresh_uuids (w : world) : Prop :=
  forall x, is_Some (thoughts w !! x) -> x < next_uuid w.

(** The store after a promotion. *)
Lemma promote_thoughts (w : world) (m : movement) (t : ident) (th : thought) :
  (promote w m t th).1 = next_uuid w /\
  thoughts (promote w m t th).2 =
  alter set_blogged t
    (<[S (next_uuid w) := new_upvote w (movement_id m) (next_uuid w)]>
       (<[next_uuid w :=
            Thought (movement_id m) (Some t) (Some (blog_id m))
              (thought_kind th) (thought_state th) (utcnow w)
              (thought_text th)
              (map (fun pa => (pa.1, movement_id m)) (percept_assocs th))
              false]> (thoughts w))).
Proof. split; reflexivity. Qed.

(** C1, as the claim states it, fails: the thought lies in the mindspace
    of persona 2 (mindset 21), not in the mindspace of the movement
    (mindset 11), and the movement promotes it all the same. *)
Definition foreign_thought : thought :=
  Thought 2 None (Some 21) "thought" 0 900 "hello" [] false.

Definition foreign_world : world :=
  World [a_movement]
    [Membership 10 (Some 1) true "admin" None]
    ∅
    {[11 := Mindset "mindspace" 10; 12 := Mindset "blog" 10;
      21 := Mindset "mindspace" 2]}
    {[50 := foreign_thought]} (Memo ∅ ∅ ∅ ∅) 1 100 1000 [].

Lemma promotion_check_foreign_mindspace :
  thoughts foreign_world !! 50 = Some foreign_thought /\
  thought_mindset foreign_thought = Some 21 /\
  mindspace_id a_movement = 11 /\
  (promotion_check foreign_world a_movement 50).1 = Some 100 /\
  blogged <$> thoughts (promotion_check foreign_world a_movement 50).2 !! 50
    = Some true.
Proof.
  assert (Hrv : required_votes foreign_world 10 =
                (0%Z, upd_cache (upd_member_count_memo <[10 := 1%Z]>)
                        foreign_world)).
  { unfold required_votes.
    replace (member_count foreign_world 10)
      with (1%Z, upd_cache (upd_member_count_memo <[10 := 1%Z]>) foreign_world)
      by (vm_compute; reflexivity).
    rewrite Votes.required_votes_1. reflexivity. }
  assert (Hpc : promotion_check foreign_world a_movement 50 =
                (Some 100,
                 (promote (upd_cache (upd_member_count_memo <[10 := 1%Z]>)
                             foreign_world) a_movement 50 foreign_thought).2)).
  { unfold promotion_check.
    replace (thoughts foreign_world !! 50) with (Some foreign_thought)
      by (vm_compute; reflexivity).
    replace (negb (blogged foreign_thought) &&
             in_mindspace foreign_world foreign_thought) with true
      by (vm_compute; reflexivity).
    change (movement_id a_movement) with 10. rewrite Hrv.
    vm_compute. reflexivity. }
  rewrite Hpc. split_and!; vm_compute; reflexivity.
Qed.

Lemma upvote_count_upd_cache (f : memo -> memo) (w : world) (t : ident) :
  upvote_count (upd_cache f w) t = upvote_count w t.
Proof. reflexivity. Qed.

(** C1, amended: [promotion_check] fires only if the thought has not
    been promoted before and its mindset is of kind "mindspace" (any
    mindspace, not only the movement's own).  When it fires and the
    upvote count reaches the required votes, it clones the thought into
    the movement's blog, under a new identifier and parented to the
    original, attaches an upvote of the movement to the clone, marks the
    original as promoted and returns the clone; otherwise it returns
    nothing and leaves the thoughts as they are.  A thought that is
    marked as promoted stays so. *)
Theorem promotion_check_spec (w : world) (m : movement) (t : ident)
    (th : thought) :
  thoughts w !! t = Some th ->
  fresh_uuids w ->
  let votes := (required_votes w (movement_id m)).1 in
  let res := promotion_check w m t in
  (if negb (blogged th) && in_mindspace w th && (votes <=? upvote_count w t)%Z
   then exists c cl u up,
       res.1 = Some c /\
       thoughts w !! c = None /\
       thoughts res.2 !! c = Some cl /\
       thought_mindset cl = Some (blog_id m) /\
       parent cl = Some t /\
       author cl = movement_id m /\
       thought_text cl = thought_text th /\
       map fst (percept_assocs cl) = map fst (percept_assocs th) /\
       thoughts res.2 !! u = Some up /\
       thought_kind up = "upvote" /\
       author up = movement_id m /\
       parent up = Some c /\
       thought_state up = 0%Z /\
       thoughts res.2 !! t = Some (set_blogged th)
   else res.1 = None /\ thoughts res.2 = thoughts w) /\
  (forall x thx,
     thoughts w !! x = Some thx -> blogged thx = true ->
     exists thx', thoughts res.2 !! x = Some thx' /\ blogged thx' = true).
Proof.
  intros Hth Hfresh. cbv zeta. unfold promotion_check. rewrite Hth.
  assert (Ht : t < next_uuid w) by (apply Hfresh; eauto).
  destruct (required_votes_world w (movement_id m)) as [f Hf].
  destruct (negb (blogged th) && in_mindspace w th) eqn:Hguard; cbn [andb].
  - destruct (required_votes w (movement_id m)) as [votes w1] eqn:Hrv.
    cbn [fst snd] in *. subst w1. rewrite upvote_count_upd_cache.
    destruct (votes <=? upvote_count w t)%Z eqn:Hvotes.
    + destruct (promote (upd_cache f w) m t th) as [c w'] eqn:Hp.
      destruct (promote_thoughts (upd_cache f w) m t th) as [Hc Hw'].
      rewrite Hp in Hc, Hw'. cbn [fst snd] in *. cbn in Hc, Hw'. subst c.
      assert (Hnew : thoughts w !! next_uuid w = None).
      { apply eq_None_not_Some. intros Hs. apply Hfresh in Hs. lia. }
      split.
      * eexists (next_uuid w), _, (S (next_uuid w)), _. rewrite Hw'.
        split_and!.
        -- reflexivity.
        -- exact Hnew.
        -- rewrite lookup_alter_ne by lia.
           rewrite lookup_insert_ne by lia. apply lookup_insert_eq.
        -- reflexivity.
        -- reflexivity.
        -- reflexivity.
        -- reflexivity.
        -- cbn. rewrite map_map. cbn. reflexivity.
        -- rewrite lookup_alter_ne by lia. apply lookup_insert_eq.
        -- reflexivity.
        -- reflexivity.
        -- reflexivity.
        -- reflexivity.
        -- rewrite lookup_alter_eq, !lookup_insert_ne by lia.
           rewrite Hth. reflexivity.
      * intros x thx Hx Hb. rewrite Hw'.
        assert (Hxlt : x < next_uuid w) by (apply Hfresh; eauto).
        destruct (decide (x = t)) as [-> | Hne].
        -- exists (set_blogged thx).
           rewrite lookup_alter_eq, !lookup_insert_ne by lia.
           rewrite Hx. split; reflexivity.
        -- exists thx.
           rewrite lookup_alter_ne by congruence.
           rewrite !lookup_insert_ne by lia. split; assumption.
    + split; [split; reflexivity |]. eauto.
  - split; [split; reflexivity |]. eauto.
Qed.

(** A thought with one upvote in the mindspace of a movement with two
    members, of which one vote is required. *)
Definition voted_thought : thought :=
  Thought 2 None (Some 11) "thought" 0 900 "hello" [(7, 2)] false.

Definition voted_world : world :=
  World [a_movement]
    [Membership 10 (Some 1) true "admin" None;
     Membership 10 (Some 2) true "member" None]
    ∅
    {[11 := Mindset "mindspace" 10; 12 := Mindset "blog" 10]}
    {[50 := voted_thought;
      51 := Thought 1 (Some 50) None "upvote" 0 950 "" [] false]}
    (Memo ∅ ∅ ∅ ∅) 1 100 1000 [].

Lemma voted_world_fresh : fresh_uuids voted_world.
Proof.
  intros x [th Hx]. change (next_uuid voted_world) with 100.
  destruct (decide (x = 50)) as [-> | H50]; [lia |].
  destruct (decide (x = 51)) as [-> | H51]; [lia |].
  unfold voted_world in Hx. cbn [thoughts] in Hx.
  rewrite lookup_insert_ne in Hx by congruence.
  rewrite lookup_singleton_ne in Hx by congruence.
  discriminate.
Qed.

Lemma promotion_check_spec_witness :
  let votes := (required_votes voted_world (movement_id a_movement)).1 in
  let res := promotion_check voted_world a_movement 50 in
  (if negb (blogged voted_thought) && in_mindspace voted_world voted_thought
      && (votes <=? upvote_count voted_world 50%nat)%Z
   then exists c cl u up,
       res.1 = Some c /\
       thoughts voted_world !! c = None /\
       thoughts res.2 !! c = Some cl /\
       thought_mindset cl = Some (blog_id a_movement) /\
       parent cl = Some 50 /\
       author cl = movement_id a_movement /\
       thought_text cl = thought_text voted_thought /\
       map fst (percept_assocs cl) = map fst (percept_assocs voted_thought) /\
       thoughts res.2 !! u = Some up /\
       thought_kind up = "upvote" /\
       author up = movement_id a_movement /\
       parent up = Some c /\
       thought_state up = 0%Z /\
       thoughts res.2 !! 50 = Some (set_blogged voted_thought)
   else res.1 = None /\ thoughts res.2 = thoughts voted_world) /\
  (forall x thx,
     thoughts voted_world !! x = Some thx -> blogged thx = true ->
     exists thx', thoughts res.2 !! x = Some thx' /\ blogged thx' = true).
Proof.
  apply (promotion_check_spec voted_world a_movement 50 voted_thought).
  - vm_compute. reflexivity.
  - exact voted_world_fresh.
Defined.

(** With two members one vote is required, and the thought has one: it
    is promoted to the blog, mindset 12. *)
Example promotion_check_promotes :
  (promotion_check voted_world a_movement 50).1 = Some 100 /\
  thought_mindset <$>
    thoughts (promotion_check voted_world a_movement 50).2 !! 100
    = Some (Some 12) /\
  blogged <$> thoughts (promotion_check voted_world a_movement 50).2 !! 50
    = Some true.
Proof.
  assert (Hrv : required_votes voted_world 10 =
                (1%Z, upd_cache (upd_member_count_memo <[10 := 2%Z]>)
                        voted_world)).
  { unfold required_votes.
    replace (member_count voted_world 10)
      with (2%Z, upd_cache (upd_member_count_memo <[10 := 2%Z]>) voted_world)
      by (vm_compute; reflexivity).
    rewrite Votes.required_votes_2. reflexivity. }
  assert (Hpc : promotion_check voted_world a_movement 50 =
                (Some 100,
                 (promote (upd_cache (upd_member_count_memo <[10 := 2%Z]>)
                             voted_world) a_movement 50 voted_thought).2)).
  { unfold promotion_check.
    replace (thoughts voted_world !! 50) with (Some voted_thought)
      by (vm_compute; reflexivity).
    replace (negb (blogged voted_thought) &&
             in_mindspace voted_world voted_thought) with true
      by (vm_compute; reflexivity).
    change (movement_id a_movement) with 10. rewrite Hrv.
    vm_compute. reflexivity. }
  rewrite Hpc. split_and!; vm_compute; reflexivity.
Qed.

(** *** More facts about [toggle_following] *)

Lemma remove_first_spec (x : ident) (l : list ident) :
  match remove_first x l with
  | Some l' => exists l1 l2, l = l1 ++ x :: l2 /\ (x ∉ l1) /\ l' = l1 ++ l2
  | None => x ∉ l
  end.
Proof.
  induction l as [| y l IH]; simpl; [apply not_elem_of_nil |].
  destruct (decide (x = y)) as [<- | Hne].
  - exists [], l. split_and!; [reflexivity | apply not_elem_of_nil | reflexivity].
  - destruct (remove_first x l) as [l' |]; simpl.
    + destruct IH as (l1 & l2 & -> & Hl1 & ->).
      exists (y :: l1), l2. split_and!; try reflexivity.
      apply not_elem_of_cons. split; assumption.
    + apply not_elem_of_cons. split; assumption.
Qed.

Lemma followed_toggle_following (w : world) (self x : ident) :
  followed (toggle_following w self x).2 self =
  match remove_first x (followed w self) with
  | Some l => l
  | None => followed w self ++ [x]
  end.
Proof.
  unfold toggle_following.
  destruct (remove_first x (followed w self)); cbn;
    unfold followed; cbn; rewrite lookup_insert_eq; reflexivity.
Qed.

(** X13: on a list of followed blogs without duplicates,
    [toggle_following] flips whether the blog is followed and says so
    in its result; the other blogs of the list and the lists of the
    other personas stay, the list stays free of duplicates, and the
    memoized frontpage sources of the persona are deleted. *)
Theorem toggle_following_flips (w : world) (self x : ident) :
  NoDup (followed w self) ->
  ((toggle_following w self x).1 = true <-> x ∉ followed w self) /\
  (x ∈ followed (toggle_following w self x).2 self <->
   x ∉ followed w self) /\
  (forall y, y <> x ->
     y ∈ followed (toggle_following w self x).2 self <->
     y ∈ followed w self) /\
  NoDup (followed (toggle_following w self x).2 self) /\
  (forall p, p <> self ->
     followed (toggle_following w self x).2 p = followed w p) /\
  frontpage_sources_memo (cache (toggle_following w self x).2) !! self = None.
Proof.
  intros Hnd. rewrite followed_toggle_following.
  pose proof (remove_first_spec x (followed w self)) as Hrm.
  assert (Hfst : (toggle_following w self x).1 =
                 match remove_first x (followed w self) with
                 | Some _ => false
                 | None => true
                 end).
  { unfold toggle_following.
    destruct (remove_first x (followed w self)); reflexivity. }
  assert (Hother : forall p, p <> self ->
            followed (toggle_following w self x).2 p = followed w p).
  { intros p Hp. unfold toggle_following.
    destruct (remove_first x (followed w self)); cbn;
      unfold followed; cbn; rewrite lookup_insert_ne by congruence;
      reflexivity. }
  assert (Hmemo : frontpage_sources_memo
                    (cache (toggle_following w self x).2) !! self = None).
  { unfold toggle_following.
    destruct (remove_first x (followed w self)); cbn;
      apply lookup_delete_eq. }
  rewrite Hfst.
  destruct (remove_first x (followed w self)) as [l' |].
  - destruct Hrm as (l1 & l2 & Hl & Hl1 & ->). rewrite Hl in Hnd |- *.
    apply NoDup_app in Hnd as (Hnd1 & Hdisj & Hnd2).
    apply NoDup_cons in Hnd2 as [Hx2 Hnd2].
    assert (Hin : x ∈ l1 ++ x :: l2) by set_solver.
    assert (Hout : x ∉ l1 ++ l2) by set_solver.
    split_and!.
    + split; [discriminate | intros H; contradiction].
    + split; [intros H; contradiction | intros H; contradiction].
    + intros y Hy. set_solver.
    + apply NoDup_app. split_and!; [exact Hnd1 | | exact Hnd2].
      intros y Hy1 Hy2. apply (Hdisj y Hy1). set_solver.
    + exact Hother.
    + exact Hmemo.
  - split_and!.
    + split; [intros _; exact Hrm | reflexivity].
    + split; [intros _; exact Hrm | intros _; set_solver].
    + intros y Hy. set_solver.
    + apply NoDup_app. split_and!; [exact Hnd | | apply NoDup_singleton].
      intros y Hy1 Hy2. apply list_elem_of_singleton in Hy2. congruence.
    + exact Hother.
    + exact Hmemo.
Qed.

(** Persona 2 follows two blogs. *)
Definition following_two : world :=
  World [a_movement] [] {[2 := [10; 1]]} ∅ ∅ (Memo ∅ ∅ ∅ {[2 := [12]]})
    2 100 1000 [].

Lemma toggle_following_flips_witness :
  NoDup (followed following_two 2) /\
  ((toggle_following following_two 2 10).1 = true <->
   10 ∉ followed following_two 2) /\
  (10 ∈ followed (toggle_following following_two 2 10).2 2 <->
   10 ∉ followed following_two 2) /\
  (forall y, y <> 10 ->
     y ∈ followed (toggle_following following_two 2 10).2 2 <->
     y ∈ followed following_two 2) /\
  NoDup (followed (toggle_following following_two 2 10).2 2) /\
  (forall p, p <> 2 ->
     followed (toggle_following following_two 2 10).2 p
       = followed following_two p) /\
  frontpage_sources_memo (cache (toggle_following following_two 2 10).2) !! 2
    = None.
Proof.
  assert (H : NoDup (followed following_two 2)).
  { apply (bool_decide_unpack _). vm_compute. reflexivity. }
  split; [exact H |].
  apply (toggle_following_flips following_two 2 10 H).
Defined.

(** *** More facts about [toggle_movement_membership] *)

(** The membership row of persona [a] in movement [m], as the second
    query of [toggle_movement_membership] asks for it. *)
Definition row_of (m a : ident) (r : membership) : Prop :=
  mma_movement r = m /\ mma_persona r = Some a.

(** [UniqueConstraint('movement_id', 'persona_id')]: no two rows name
    the same movement and the same persona. *)
Definition unique_memberships (w : world) : Prop :=
  forall i j r r',
    members w !! i = Some r -> members w !! j = Some r' ->
    mma_movement r = mma_movement r' -> mma_persona r = mma_persona r' ->
    is_Some (mma_persona r) -> i = j.

Lemma remove_first_absent (x : ident) (l : list ident) :
  x ∉ l -> remove_first x l = None.
Proof.
  intros Hx. pose proof (remove_first_spec x l) as H.
  destruct (remove_first x l) as [l' |]; [| reflexivity].
  destruct H as (l1 & l2 & -> & _). exfalso. apply Hx. set_solver.
Qed.

(** The world in which the membership is changed: the persona follows
    the movement when it joins. *)
Definition follow_when_joining (w : world) (self : ident) (m : movement)
    (inactive : bool) : world :=
  if bool_decide (movement_id m ∉ followed w self) && inactive
  then (toggle_following w self (movement_id m)).2
  else w.

Lemma follow_when_joining_members (w : world) (self : ident) (m : movement)
    (inactive : bool) :
  members (follow_when_joining w self m inactive) = members w.
Proof.
  unfold follow_when_joining, toggle_following.
  destruct (_ && _); [| reflexivity].
  destruct (remove_first _ _); reflexivity.
Qed.

Lemma follow_when_joining_followed (w : world) (self : ident) (m : movement)
    (inactive : bool) :
  (inactive = true ->
   movement_id m ∈ followed (follow_when_joining w self m inactive) self) /\
  (inactive = false ->
   followed (follow_when_joining w self m inactive) self = followed w self).
Proof.
  unfold follow_when_joining. split.
  - intros ->. rewrite andb_true_r. case_bool_decide as Hin.
    + rewrite followed_toggle_following, remove_first_absent by exact Hin.
      set_solver.
    + destruct (decide (movement_id m ∈ followed w self)); [assumption |].
      contradiction.
  - intros ->. rewrite andb_false_r. reflexivity.
Qed.

(** The three ways the call goes without an invitation code, by the row
    the query finds. *)
Lemma toggle_no_row (w : world) (self : ident) (m : movement) (role : string) :
  list_find (row_of (movement_id m) self) (members w) = None ->
  toggle_movement_membership w self m role None =
  if private m && negb (bool_decide (active_persona w = admin_id m))
  then Raise UnauthorizedError
  else
    let r := Membership (movement_id m) (Some self) true role None in
    Ok (r, upd_cache (reset_caches self (movement_id m))
             (upd_members (fun t => t ++ [r])
                (follow_when_joining w self m true))).
Proof.
  intros E. unfold toggle_movement_membership, find_membership, row_of in *.
  cbn [has_code]. rewrite E.
  destruct (private m), (bool_decide (active_persona w = admin_id m));
    reflexivity.
Qed.

Lemma toggle_inactive_row (w : world) (self : ident) (m : movement)
    (role : string) (i : nat) (r0 : membership) :
  list_find (row_of (movement_id m) self) (members w) = Some (i, r0) ->
  mma_active r0 = false ->
  toggle_movement_membership w self m role None =
  if negb (bool_decide (mma_invitation_code r0 = None)) && private m &&
     negb (bool_decide (active_persona w = admin_id m))
  then Raise UnauthorizedError
  else
    let r := Membership (mma_movement r0) (mma_persona r0) true role
               (mma_invitation_code r0) in
    Ok (r, upd_cache (reset_caches self (movement_id m))
             (upd_members <[i := r]> (follow_when_joining w self m true))).
Proof.
  intros E Ha. unfold toggle_movement_membership, find_membership, row_of in *.
  cbn [has_code]. rewrite E, Ha.
  unfold follow_when_joining.
  destruct (private m); repeat case_bool_decide;
    try reflexivity; contradiction.
Qed.

Lemma toggle_active_row (w : world) (self : ident) (m : movement)
    (role : string) (i : nat) (r0 : membership) :
  list_find (row_of (movement_id m) self) (members w) = Some (i, r0) ->
  mma_active r0 = true ->
  toggle_movement_membership w self m role None =
  if bool_decide (self = admin_id m)
  then Raise NotImplementedError
  else
    let r := Membership (mma_movement r0) (mma_persona r0) false "left"
               (mma_invitation_code r0) in
    Ok (r, upd_cache (reset_caches self (movement_id m))
             (upd_members <[i := r]> (follow_when_joining w self m false))).
Proof.
  intros E Ha. unfold toggle_movement_membership, find_membership, row_of in *.
  cbn [has_code]. rewrite E, Ha.
  destruct (bool_decide (self = admin_id m)); reflexivity.
Qed.

(** A call without an invitation code that returns has changed one row
    of the persona in the movement, or added one when there was none. *)
Lemma toggle_members (w w' : world) (self : ident) (m : movement)
    (role : string) (r : membership) :
  toggle_movement_membership w self m role None = Ok (r, w') ->
  row_of (movement_id m) self r /\
  exists pre post,
    Forall (fun q => ~ row_of (movement_id m) self q) pre /\
    members w' = pre ++ r :: post /\
    ((exists r0,
        members w = pre ++ r0 :: post /\ row_of (movement_id m) self r0 /\
        mma_active r = negb (mma_active r0) /\
        mma_role r = (if mma_active r0 then "left" else role) /\
        (mma_active r0 = true -> self <> admin_id m)) \/
     (members w = pre /\ post = [] /\
      mma_active r = true /\ mma_role r = role)).
Proof.
  destruct (list_find (row_of (movement_id m) self) (members w))
    as [[i r0] |] eqn:E.
  - pose proof E as Hfind.
    apply list_find_Some in Hfind as (Hi & [Hm Hp] & Hfirst).
    assert (Hpre : Forall (fun q => ~ row_of (movement_id m) self q)
                     (take i (members w))).
    { apply Forall_forall. intros q Hq.
      apply list_elem_of_lookup in Hq as [j Hj].
      apply lookup_take_Some in Hj as [Hj Hlt]. eapply Hfirst; eassumption. }
    assert (Hlen : i < length (members w)) by (eapply lookup_lt_Some, Hi).
    destruct (mma_active r0) eqn:Ha.
    + rewrite (toggle_active_row _ _ _ _ _ _ E Ha).
      case_bool_decide as Hadm; [discriminate |]. cbv zeta.
      intros [= <- <-]. split; [split; assumption |].
      exists (take i (members w)), (drop (S i) (members w)).
      split; [exact Hpre |]. split.
      * cbn [members upd_cache upd_members].
        rewrite follow_when_joining_members.
        apply insert_take_drop. exact Hlen.
      * left. exists r0. rewrite take_drop_middle by exact Hi.
        rewrite Ha. split_and!; try done.
    + rewrite (toggle_inactive_row _ _ _ _ _ _ E Ha).
      destruct (_ && _ && _); [discriminate |]. cbv zeta.
      intros [= <- <-]. split; [split; assumption |].
      exists (take i (members w)), (drop (S i) (members w)).
      split; [exact Hpre |]. split.
      * cbn [members upd_cache upd_members].
        rewrite follow_when_joining_members.
        apply insert_take_drop. exact Hlen.
      * left. exists r0. rewrite take_drop_middle by exact Hi.
        rewrite Ha. split_and!; try done.
  - rewrite (toggle_no_row _ _ _ _ E).
    destruct (_ && _); [discriminate |]. cbv zeta.
    intros [= <- <-]. split; [split; reflexivity |].
    exists (members w), []. split; [| split].
    + apply list_find_None in E. exact E.
    + cbn [members upd_cache upd_members].
      rewrite follow_when_joining_members. reflexivity.
    + right. split_and!; reflexivity.
Qed.

Lemma count_active_split (x : ident) (pre post : list membership)
    (q : membership) :
  length (filter (fun r => mma_movement r = x /\ mma_active r = true)
            (pre ++ q :: post)) =
  length (filter (fun r => mma_movement r = x /\ mma_active r = true) pre) +
  (if decide (mma_movement q = x /\ mma_active q = true) then 1 else 0) +
  length (filter (fun r => mma_movement r = x /\ mma_active r = true) post).
Proof.
  rewrite filter_app, filter_cons, length_app.
  destruct (decide (mma_movement q = x /\ mma_active q = true)); simpl; lia.
Qed.

(** X14: a returning call without an invitation code changes the number
    of active members of the movement by one, up when the returned
    membership is active and down when it is not, and leaves the number
    of every other movement; the memoized count is deleted, so the next
    [member_count] gives the new number. *)
Theorem toggle_member_count (w w' : world) (self : ident) (m : movement)
    (role : string) (r : membership) :
  toggle_movement_membership w self m role None = Ok (r, w') ->
  (member_count w' (movement_id m)).1 =
    (count_active_members w (movement_id m) +
     (if mma_active r then 1 else -1))%Z /\
  (forall m', m' <> movement_id m ->
     count_active_members w' m' = count_active_members w m').
Proof.
  intros H.
  destruct (toggle_resets_caches _ _ _ _ _ _ _ H) as (Hmiss & _).
  destruct (toggle_members _ _ _ _ _ _ H)
    as ([Hm Hp] & pre & post & Hpre & Hw' & Hcase).
  unfold member_count. rewrite Hmiss. cbn [fst].
  unfold count_active_members. rewrite Hw'.
  destruct Hcase as [(r0 & Hw & [Hm0 Hp0] & Hact & _) | (Hw & -> & Hact & _)];
    rewrite Hw.
  - split.
    + rewrite !count_active_split, Hact.
      destruct (mma_active r0) eqn:Ha0; cbn [negb];
        repeat destruct (decide _) as [[? ?] | ?];
        first [lia | congruence | (exfalso; naive_solver)].
    + intros m' Hne. rewrite !count_active_split.
      repeat destruct (decide _) as [[? ?] | ?];
        first [lia | congruence | (exfalso; naive_solver)].
  - split.
    + rewrite count_active_split, Hact.
      destruct (decide _) as [[? ?] | ?]; simpl;
        first [lia | congruence | (exfalso; naive_solver)].
    + intros m' Hne. rewrite count_active_split.
      destruct (decide _) as [[? ?] | ?]; simpl;
        first [lia | congruence | (exfalso; naive_solver)].
Qed.

Lemma toggle_member_count_witness :
  exists r w',
    toggle_movement_membership before_joining 2 a_movement "member" None
      = Ok (r, w') /\
    (member_count w' (movement_id a_movement)).1 =
      (count_active_members before_joining (movement_id a_movement) +
       (if mma_active r then 1 else -1))%Z /\
    (forall m', m' <> movement_id a_movement ->
       count_active_members w' m' = count_active_members before_joining m').
Proof.
  eexists. eexists. split; [vm_compute; reflexivity |].
  apply (toggle_member_count before_joining _ 2 a_movement "member").
  vm_compute. reflexivity.
Defined.

Lemma active_member_split (w : world) (pre post : list membership)
    (q : membership) (m a : ident) :
  members w = pre ++ q :: post ->
  active_member w m a <->
  (exists r, r ∈ pre ++ post /\ row_of m a r /\ mma_active r = true) \/
  (row_of m a q /\ mma_active q = true).
Proof.
  intros Hw. unfold active_member, row_of. rewrite Hw. split.
  - intros (r & Hr & Hm & Hp & Ha).
    apply elem_of_app in Hr as [Hr | Hr].
    + left. exists r. split; [set_solver | auto].
    + apply elem_of_cons in Hr as [-> | Hr]; [right; auto |].
      left. exists r. split; [set_solver | auto].
  - intros [(r & Hr & [Hm Hp] & Ha) | ([Hm Hp] & Ha)].
    + exists r. split; [set_solver | auto].
    + exists q. split; [set_solver | auto].
Qed.

(** Under the unique constraint the row the query finds is the only
    row of the persona in the movement. *)
Lemma unique_row (w : world) (pre post : list membership)
    (r0 : membership) (m a : ident) :
  unique_memberships w ->
  members w = pre ++ r0 :: post -> row_of m a r0 ->
  Forall (fun q => ~ row_of m a q) post.
Proof.
  intros Hu Hw [Hm Hp]. apply Forall_forall. intros q Hq [Hmq Hpq].
  apply list_elem_of_lookup in Hq as [j Hj].
  assert (H0 : members w !! length pre = Some r0).
  { rewrite Hw. apply list_lookup_middle. reflexivity. }
  assert (H1 : members w !! (length pre + S j) = Some q).
  { rewrite Hw, lookup_app_r by lia.
    replace (length pre + S j - length pre) with (S j) by lia. exact Hj. }
  assert (E : length pre = length pre + S j).
  { apply (Hu _ _ _ _ H0 H1); [congruence | congruence |].
    rewrite Hp. eauto. }
  lia.
Qed.

Lemma unique_memberships_keys (w w' : world) :
  map (fun r => (mma_movement r, mma_persona r)) (members w') =
  map (fun r => (mma_movement r, mma_persona r)) (members w) ->
  unique_memberships w -> unique_memberships w'.
Proof.
  intros Hk Hu i j r r' Hi Hj Hm Hp Hs.
  assert (Hi' : map (fun r => (mma_movement r, mma_persona r)) (members w) !! i
                = Some (mma_movement r, mma_persona r)).
  { rewrite <- Hk, list_lookup_fmap, Hi. reflexivity. }
  assert (Hj' : map (fun r => (mma_movement r, mma_persona r)) (members w) !! j
                = Some (mma_movement r', mma_persona r')).
  { rewrite <- Hk, list_lookup_fmap, Hj. reflexivity. }
  rewrite list_lookup_fmap in Hi', Hj'.
  destruct (members w !! i) as [q |] eqn:Eq; [| discriminate].
  destruct (members w !! j) as [q' |] eqn:Eq'; [| discriminate].
  injection Hi' as Hqm Hqp. injection Hj' as Hqm' Hqp'.
  apply (Hu i j q q' Eq Eq'); [congruence | congruence |].
  rewrite Hqp. exact Hs.
Qed.

(** X15: under the unique constraint on membership rows, a returning
    call without an invitation code flips whether the persona is an
    active member of the movement, and the returned row says which it
    is now; the membership of every other persona and in every other
    movement stays, and the unique constraint still holds. *)
Theorem toggle_flips_membership (w w' : world) (self : ident) (m : movement)
    (role : string) (r : membership) :
  unique_memberships w ->
  toggle_movement_membership w self m role None = Ok (r, w') ->
  (active_member w' (movement_id m) self <->
   ~ active_member w (movement_id m) self) /\
  (mma_active r = true <-> active_member w' (movement_id m) self) /\
  (forall m' a, (m', a) <> (movement_id m, self) ->
     active_member w' m' a <-> active_member w m' a) /\
  unique_memberships w'.
Proof.
  intros Hu H.
  destruct (toggle_members _ _ _ _ _ _ H)
    as (Hr & pre & post & Hpre & Hw' & Hcase).
  rewrite Forall_forall in Hpre.
  destruct Hcase as [(r0 & Hw & Hr0 & Hact & _) | (Hw & -> & Hact & _)].
  - pose proof (unique_row _ _ _ _ _ _ Hu Hw Hr0) as Hpost.
    rewrite Forall_forall in Hpost.
    assert (Hrest : forall q, q ∈ pre ++ post ->
                      ~ row_of (movement_id m) self q).
    { intros q Hq. apply elem_of_app in Hq as [Hq | Hq]; auto. }
    assert (Hnew : active_member w' (movement_id m) self <->
                   mma_active r = true).
    { rewrite (active_member_split w' _ _ _ _ _ Hw'). split.
      - intros [(q & Hq & Hrow & _) | [_ Ha]]; [| exact Ha].
        exfalso. eapply Hrest; eassumption.
      - intros Ha. right. split; assumption. }
    assert (Hold : active_member w (movement_id m) self <->
                   mma_active r0 = true).
    { rewrite (active_member_split w _ _ _ _ _ Hw). split.
      - intros [(q & Hq & Hrow & _) | [_ Ha]]; [| exact Ha].
        exfalso. eapply Hrest; eassumption.
      - intros Ha. right. split; assumption. }
    split_and!.
    + rewrite Hnew, Hold, Hact. destruct (mma_active r0); simpl; split;
        congruence.
    + symmetry. exact Hnew.
    + intros m' a Hne.
      rewrite (active_member_split w' _ _ _ _ _ Hw'),
        (active_member_split w _ _ _ _ _ Hw).
      destruct Hr as [Hm Hp]. destruct Hr0 as [Hm0 Hp0].
      split; (intros [Hq | [[Hm' Hp'] _]]; [left; exact Hq |]);
        exfalso; apply Hne; congruence.
    + apply (unique_memberships_keys w w'); [| exact Hu].
      rewrite Hw', Hw, !map_app. cbn [map].
      destruct Hr as [-> ->]. destruct Hr0 as [-> ->]. reflexivity.
  - split_and!.
    + split.
      * intros _ (q & Hq & Hm' & Hp' & _). rewrite Hw in Hq.
        eapply Hpre; [exact Hq | split; assumption].
      * intros _. exists r. rewrite Hw'. destruct Hr as [Hm Hp].
        split; [set_solver | auto].
    + split; [| intros _; exact Hact].
      intros _. exists r. rewrite Hw'. destruct Hr as [Hm Hp].
      split; [set_solver | auto].
    + intros m' a Hne. unfold active_member. rewrite Hw', <- Hw. split.
      * intros (q & Hq & Hm' & Hp' & Ha).
        apply elem_of_app in Hq as [Hq | Hq]; [eauto 6 |].
        apply list_elem_of_singleton in Hq. subst q.
        destruct Hr as [Hm Hp]. exfalso. apply Hne. congruence.
      * intros (q & Hq & Hrest). exists q. split; [set_solver | exact Hrest].
    + intros i j q q' Hi Hj Hm Hp Hs. rewrite Hw', <- Hw in Hi, Hj.
      assert (Hlast : forall k x,
                (members w ++ [r]) !! k = Some x ->
                (k < length (members w) /\ members w !! k = Some x) \/
                (k = length (members w) /\ x = r)).
      { intros k x Hk. destruct (decide (k < length (members w))).
        - left. split; [assumption |]. rewrite lookup_app_l in Hk; assumption.
        - right. rewrite lookup_app_r in Hk by lia.
          apply list_lookup_singleton_Some in Hk as [Hk ->].
          split; [lia | reflexivity]. }
      destruct (Hlast _ _ Hi) as [[Hil Hi'] | [-> ->]];
        destruct (Hlast _ _ Hj) as [[Hjl Hj'] | [-> ->]].
      * apply (Hu _ _ _ _ Hi' Hj'); assumption.
      * exfalso. apply (Hpre q).
        -- rewrite <- Hw. eapply list_elem_of_lookup_2, Hi'.
        -- destruct Hr as [Hrm Hrp]. split; congruence.
      * exfalso. apply (Hpre q').
        -- rewrite <- Hw. eapply list_elem_of_lookup_2, Hj'.
        -- destruct Hr as [Hrm Hrp]. split; congruence.
      * reflexivity.
Qed.

Lemma two_members_unique : unique_memberships two_members.
Proof.
  intros i j r r' Hi Hj Hm Hp _.
  destruct i as [| [| i]], j as [| [| j]]; try reflexivity;
    cbn in Hi, Hj; try discriminate;
    injection Hi as <-; injection Hj as <-; discriminate.
Qed.

Lemma toggle_flips_membership_witness :
  unique_memberships two_members /\
  exists r w',
    toggle_movement_membership two_members 2 a_movement "member" None
      = Ok (r, w') /\
    (active_member w' (movement_id a_movement) 2 <->
     ~ active_member two_members (movement_id a_movement) 2) /\
    (mma_active r = true <-> active_member w' (movement_id a_movement) 2) /\
    (forall m' a, (m', a) <> (movement_id a_movement, 2) ->
       active_member w' m' a <-> active_member two_members m' a) /\
    unique_memberships w'.
Proof.
  split; [exact two_members_unique |].
  eexists. eexists. split; [vm_compute; reflexivity |].
  apply (toggle_flips_membership two_members _ 2 a_movement "member").
  - exact two_members_unique.
  - vm_compute. reflexivity.
Defined.

(** The query finds the row of an active member, and under the unique
    constraint it is the active one. *)
Lemma find_active_row (w : world) (m a : ident) :
  unique_memberships w -> active_member w m a ->
  exists i r0,
    list_find (row_of m a) (members w) = Some (i, r0) /\
    mma_active r0 = true.
Proof.
  intros Hu (q & Hq & Hm & Hp & Ha).
  destruct (list_find (row_of m a) (members w)) as [[i r0] |] eqn:E.
  - exists i, r0. split; [reflexivity |].
    apply list_find_Some in E as (Hi & [Hm0 Hp0] & _).
    apply list_elem_of_lookup in Hq as [j Hj].
    assert (i = j).
    { apply (Hu _ _ _ _ Hi Hj); [congruence | congruence |].
      rewrite Hp0. eauto. }
    subst j. congruence.
  - apply list_find_None in E. rewrite Forall_forall in E.
    exfalso. apply (E q Hq). split; assumption.
Qed.

Lemma find_inactive_row (w : world) (m a : ident) :
  ~ active_member w m a ->
  list_find (row_of m a) (members w) = None \/
  exists i r0,
    list_find (row_of m a) (members w) = Some (i, r0) /\
    mma_active r0 = false.
Proof.
  intros Hn.
  destruct (list_find (row_of m a) (members w)) as [[i r0] |] eqn:E;
    [right | left; reflexivity].
  exists i, r0. split; [reflexivity |].
  destruct (mma_active r0) eqn:Ha; [| reflexivity].
  apply list_find_Some in E as (Hi & [Hm0 Hp0] & _).
  exfalso. apply Hn. exists r0.
  split; [eapply list_elem_of_lookup_2, Hi | auto].
Qed.

(** X16: the admin of a movement cannot leave it: while the admin is an
    active member, the call without an invitation code raises
    [NotImplementedError]. *)
Theorem toggle_admin_cannot_leave (w : world) (m : movement) (role : string) :
  unique_memberships w ->
  active_member w (movement_id m) (admin_id m) ->
  toggle_movement_membership w (admin_id m) m role None
  = Raise NotImplementedError.
Proof.
  intros Hu Ha.
  destruct (find_active_row _ _ _ Hu Ha) as (i & r0 & E & Hact).
  rewrite (toggle_active_row _ _ _ _ _ _ E Hact).
  rewrite bool_decide_eq_true_2 by reflexivity. reflexivity.
Qed.

Lemma toggle_admin_cannot_leave_witness :
  unique_memberships two_members /\
  active_member two_members (movement_id a_movement) (admin_id a_movement) /\
  toggle_movement_membership two_members (admin_id a_movement) a_movement
    "member" None = Raise NotImplementedError.
Proof.
  assert (H : active_member two_members (movement_id a_movement)
                (admin_id a_movement)).
  { apply (bool_decide_unpack (active_member _ 10 1)). vm_compute.
    reflexivity. }
  split; [exact two_members_unique |]. split; [exact H |].
  apply (toggle_admin_cannot_leave two_members a_movement "member"
           two_members_unique H).
Defined.

(** X17: a persona that is not an active member joins a public movement,
    and any movement while its admin is logged in, by a call without an
    invitation code: the call returns an active membership with the role
    asked for, the persona is an active member afterwards and follows
    the movement. *)
Theorem toggle_joins (w : world) (self : ident) (m : movement)
    (role : string) :
  private m = false \/ active_persona w = admin_id m ->
  ~ active_member w (movement_id m) self ->
  exists r w',
    toggle_movement_membership w self m role None = Ok (r, w') /\
    mma_active r = true /\ mma_role r = role /\
    active_member w' (movement_id m) self /\
    movement_id m ∈ followed w' self.
Proof.
  intros Hopen Hn.
  assert (Hguard : forall b,
            b && private m &&
            negb (bool_decide (active_persona w = admin_id m)) = false).
  { intros b. destruct Hopen as [-> | Hadm].
    - rewrite andb_false_r. reflexivity.
    - rewrite bool_decide_eq_true_2 by exact Hadm. apply andb_false_r. }
  destruct (follow_when_joining_followed w self m true) as [Hfol _].
  specialize (Hfol eq_refl).
  destruct (find_inactive_row _ _ _ Hn) as [E | (i & r0 & E & Hact)].
  - rewrite (toggle_no_row _ _ _ _ E).
    specialize (Hguard true). cbn [andb] in Hguard. rewrite Hguard.
    cbv zeta. eexists. eexists. split; [reflexivity |].
    split_and!; try reflexivity.
    + exists (Membership (movement_id m) (Some self) true role None).
      split; [| split_and!; reflexivity].
      cbn [members upd_cache upd_members]. set_solver.
    + exact Hfol.
  - rewrite (toggle_inactive_row _ _ _ _ _ _ E Hact), Hguard.
    cbv zeta. eexists. eexists. split; [reflexivity |].
    apply list_find_Some in E as (Hi & [Hm0 Hp0] & _).
    split_and!; try reflexivity.
    + exists (Membership (mma_movement r0) (mma_persona r0) true role
                (mma_invitation_code r0)).
      split; [| split_and!; [exact Hm0 | exact Hp0 | reflexivity]].
      cbn [members upd_cache upd_members].
      rewrite follow_when_joining_members.
      eapply list_elem_of_lookup_2. apply list_lookup_insert_eq.
      eapply lookup_lt_Some, Hi.
    + exact Hfol.
Qed.

Lemma toggle_joins_witness :
  (private a_movement = false \/
   active_persona before_joining = admin_id a_movement) /\
  ~ active_member before_joining (movement_id a_movement) 2 /\
  exists r w',
    toggle_movement_membership before_joining 2 a_movement "member" None
      = Ok (r, w') /\
    mma_active r = true /\ mma_role r = "member"%string /\
    active_member w' (movement_id a_movement) 2 /\
    movement_id a_movement ∈ followed w' 2.
Proof.
  assert (H1 : private a_movement = false \/
               active_persona before_joining = admin_id a_movement)
    by (left; reflexivity).
  assert (H2 : ~ active_member before_joining (movement_id a_movement) 2).
  { apply (bool_decide_eq_false_1 (active_member _ 10 2)). vm_compute.
    reflexivity. }
  split; [exact H1 |]. split; [exact H2 |].
  apply (toggle_joins before_joining 2 a_movement "member" H1 H2).
Defined.

(** X18: an active member other than the admin leaves by a call without
    an invitation code: the call returns the membership, inactive and
    with the role "left", the persona is no active member afterwards,
    and it goes on following what it followed, the movement included. *)
Theorem toggle_leaves (w : world) (self : ident) (m : movement)
    (role : string) :
  unique_memberships w ->
  active_member w (movement_id m) self ->
  self <> admin_id m ->
  exists r w',
    toggle_movement_membership w self m role None = Ok (r, w') /\
    mma_active r = false /\ mma_role r = "left"%string /\
    ~ active_member w' (movement_id m) self /\
    followed w' self = followed w self.
Proof.
  intros Hu Ha Hadm.
  destruct (find_active_row _ _ _ Hu Ha) as (i & r0 & E & Hact).
  pose proof (toggle_active_row w self m role i r0 E Hact) as Heq.
  rewrite bool_decide_eq_false_2 in Heq by exact Hadm. cbv zeta in Heq.
  eexists. eexists. split; [exact Heq |].
  split_and!; try reflexivity.
  - destruct (toggle_members _ _ _ _ _ _ Heq)
      as (Hr & pre & post & Hpre & Hw' & Hcase).
    rewrite Forall_forall in Hpre.
    destruct Hcase as [(q0 & Hw & Hq0 & _) | (_ & _ & Hact' & _)];
      [| discriminate].
    pose proof (unique_row _ _ _ _ _ _ Hu Hw Hq0) as Hpost.
    rewrite Forall_forall in Hpost.
    rewrite (active_member_split _ _ _ _ _ _ Hw').
    intros [(q & Hq & Hrow & _) | [_ Hc]]; [| discriminate].
    apply elem_of_app in Hq as [Hq | Hq]; [eapply Hpre | eapply Hpost];
      eassumption.
  - destruct (follow_when_joining_followed w self m false) as [_ Hfol].
    exact (Hfol eq_refl).
Qed.

Lemma toggle_leaves_witness :
  unique_memberships two_members /\
  active_member two_members (movement_id a_movement) 2 /\
  2 <> admin_id a_movement /\
  exists r w',
    toggle_movement_membership two_members 2 a_movement "member" None
      = Ok (r, w') /\
    mma_active r = false /\ mma_role r = "left"%string /\
    ~ active_member w' (movement_id a_movement) 2 /\
    followed w' 2 = followed two_members 2.
Proof.
  assert (H : active_member two_members (movement_id a_movement) 2).
  { apply (bool_decide_unpack (active_member _ 10 2)). vm_compute.
    reflexivity. }
  assert (Hne : 2 <> admin_id a_movement) by discriminate.
  split; [exact two_members_unique |]. split; [exact H |].
  split; [exact Hne |].
  apply (toggle_leaves two_members 2 a_movement "member"
           two_members_unique H Hne).
Defined.

(** The movement as a private one. *)
Definition a_private_movement : movement :=
  Movement 10 "movement" true 1 12 11.

(** *** A thought is promoted once *)

Lemma promote_fresh (w : world) (m : movement) (t : ident) (th : thought) :
  fresh_uuids w -> fresh_uuids (promote w m t th).2.
Proof.
  intros Hfresh x Hx.
  destruct (promote_thoughts w m t th) as [_ Hth]. rewrite Hth in Hx.
  change (next_uuid (promote w m t th).2) with (S (S (next_uuid w))).
  rewrite lookup_alter_is_Some in Hx.
  destruct (decide (x = S (next_uuid w))) as [-> | H1]; [lia |].
  rewrite lookup_insert_ne in Hx by congruence.
  destruct (decide (x = next_uuid w)) as [-> | H2]; [lia |].
  rewrite lookup_insert_ne in Hx by congruence.
  apply Hfresh in Hx. lia.
Qed.

(** X20: a thought is promoted at most once: after a call of
    [promotion_check] that promoted it, a further call for the same
    thought, by this or any other movement, returns nothing and changes
    nothing; and the identifiers the promotion took are in use now, the
    next ones still unused. *)
Theorem promotion_check_once (w : world) (m m2 : movement) (t c : ident) :
  fresh_uuids w ->
  (promotion_check w m t).1 = Some c ->
  promotion_check (promotion_check w m t).2 m2 t
    = (None, (promotion_check w m t).2) /\
  fresh_uuids (promotion_check w m t).2.
Proof.
  intros Hfresh Hres.
  assert (Hpc : exists th f,
            thoughts w !! t = Some th /\
            (promotion_check w m t).2 = (promote (upd_cache f w) m t th).2).
  { unfold promotion_check in *.
    destruct (thoughts w !! t) as [th |] eqn:Hth; [| discriminate].
    destruct (negb (blogged th) && in_mindspace w th); [| discriminate].
    destruct (required_votes_world w (movement_id m)) as [f Hf].
    destruct (required_votes w (movement_id m)) as [votes w1].
    cbn [snd] in Hf. subst w1.
    destruct (votes <=? upvote_count (upd_cache f w) t)%Z; [| discriminate].
    exists th, f. split; [reflexivity |].
    destruct (promote (upd_cache f w) m t th) as [c0 w']. reflexivity. }
  destruct Hpc as (th & f & Hth & ->).
  assert (Ht : t < next_uuid w) by (apply Hfresh; eauto).
  split.
  - unfold promotion_check.
    destruct (promote_thoughts (upd_cache f w) m t th) as [_ ->].
    change (next_uuid (upd_cache f w)) with (next_uuid w).
    rewrite lookup_alter_eq, !lookup_insert_ne by lia.
    change (thoughts (upd_cache f w)) with (thoughts w). rewrite Hth.
    reflexivity.
  - apply promote_fresh. exact Hfresh.
Qed.

Lemma promotion_check_once_witness :
  fresh_uuids voted_world /\
  (promotion_check voted_world a_movement 50).1 = Some 100 /\
  promotion_check (promotion_check voted_world a_movement 50).2 a_movement 50
    = (None, (promotion_check voted_world a_movement 50).2) /\
  fresh_uuids (promotion_check voted_world a_movement 50).2.
Proof.
  assert (H : (promotion_check voted_world a_movement 50).1 = Some 100)
    by (apply promotion_check_promotes).
  split; [exact voted_world_fresh |]. split; [exact H |].
  apply (promotion_check_once voted_world a_movement a_movement 50 100
           voted_world_fresh H).
Defined.

(** *** [Movement.current_role], [Movement.active_member],
    [Movement.authorize] and [Persona.frontpage_sources] *)

(** [current_role(self)]; [anonymous] tells that nobody is logged in
    ([not current_user or current_user.is_anonymous()]). *)
Definition current_role (w : world) (anonymous : bool) (m : movement)
  : string :=
  if anonymous then "anonymous"
  else
    match list_find (row_of (movement_id m) (active_persona w)) (members w) with
    | None => "visitor"
    | Some (_, gma) => mma_role gma
    end.

(** [active_member(self, persona=None)] *)
Definition is_active_member (w : world) (anonymous : bool) (m : movement)
    (persona : option ident) : bool :=
  let persona :=
    match persona with
    | None => if negb anonymous then Some (active_persona w) else None
    | Some a => Some a
    end in
  match persona with
  | Some a => bool_decide (active_member w (movement_id m) a)
  | None => false
  end.

Section Authorize.

(** [BaseModel.authorize(self, action, author_id)] is defined in
    [base.py]; the facts hold whatever it answers. *)
Variable base_authorize : movement -> string -> option ident -> bool.

(** [authorize(self, action, author_id=None)] of [Movement] *)
Definition authorize (w : world) (m : movement) (action : string)
    (author_id : option ident) : bool :=
  if base_authorize m action author_id
  then
    if bool_decide (action = "read"%string)
    then
      if private m
      then
        bool_decide
          (is_Some
             (list_find (fun r => mma_movement r = movement_id m /\
                                  mma_active r = true /\
                                  mma_persona r = author_id)
                (members w)))
      else true
    else bool_decide (Some (admin_id m) = author_id)
  else false.

Lemma authorize_read_member (w : world) (m : movement) (a : ident) :
  authorize w m "read" (Some a) =
  base_authorize m "read" (Some a) &&
  (negb (private m) || bool_decide (active_member w (movement_id m) a)).
Proof.
  unfold authorize. destruct (base_authorize m "read" (Some a)); [| reflexivity].
  rewrite bool_decide_eq_true_2 by reflexivity.
  destruct (private m); [| reflexivity]. cbn [negb orb andb].
  apply bool_decide_ext. split.
  - intros [[i r] E]. apply list_find_Some in E as (Hi & (Hm & Ha & Hp) & _).
    exists r. split; [eapply list_elem_of_lookup_2, Hi | auto].
  - intros (r & Hr & Hm & Hp & Ha).
    destruct (list_find _ (members w)) as [x |] eqn:E; [eauto |].
    apply list_find_None in E. rewrite Forall_forall in E.
    exfalso. apply (E r Hr). auto.
Qed.

End Authorize.

(** What a returning call without an invitation code leaves: the world
    with the follow, the changed rows and the caches reset. *)
Lemma toggle_world (w w' : world) (self : ident) (m : movement)
    (role : string) (r : membership) :
  toggle_movement_membership w self m role None = Ok (r, w') ->
  exists f,
    w' = upd_cache (reset_caches self (movement_id m))
           (upd_members f (follow_when_joining w self m (mma_active r))).
Proof.
  destruct (list_find (row_of (movement_id m) self) (members w))
    as [[i r0] |] eqn:E.
  - destruct (mma_active r0) eqn:Ha.
    + rewrite (toggle_active_row _ _ _ _ _ _ E Ha).
      destruct (bool_decide (self = admin_id m)); [discriminate |].
      cbv zeta. intros [= <- <-]. eexists. reflexivity.
    + rewrite (toggle_inactive_row _ _ _ _ _ _ E Ha).
      destruct (_ && _ && _); [discriminate |].
      cbv zeta. intros [= <- <-]. eexists. reflexivity.
  - rewrite (toggle_no_row _ _ _ _ E).
    destruct (_ && _); [discriminate |].
    cbv zeta. intros [= <- <-]. eexists. reflexivity.
Qed.

(** The row the call returns is the first row of the persona in the
    movement afterwards. *)
Lemma toggle_row_found (w w' : world) (self : ident) (m : movement)
    (role : string) (r : membership) :
  toggle_movement_membership w self m role None = Ok (r, w') ->
  exists i, list_find (row_of (movement_id m) self) (members w') = Some (i, r).
Proof.
  intros H.
  destruct (toggle_members _ _ _ _ _ _ H)
    as (Hr & pre & post & Hpre & Hw' & _).
  exists (length pre). rewrite Hw'. apply list_find_Some. split_and!.
  - apply list_lookup_middle. reflexivity.
  - exact Hr.
  - intros j y Hj Hlt. rewrite lookup_app_l in Hj by exact Hlt.
    rewrite Forall_forall in Hpre. apply Hpre.
    eapply list_elem_of_lookup_2, Hj.
Qed.

(** Whether the persona is an active member after the call, under the
    unique constraint. *)
Lemma toggle_active_after (w w' : world) (self : ident) (m : movement)
    (role : string) (r : membership) :
  unique_memberships w ->
  toggle_movement_membership w self m role None = Ok (r, w') ->
  active_member w' (movement_id m) self <-> mma_active r = true.
Proof.
  intros Hu H.
  destruct (toggle_members _ _ _ _ _ _ H)
    as (Hr & pre & post & Hpre & Hw' & Hcase).
  rewrite Forall_forall in Hpre.
  rewrite (active_member_split w' _ _ _ _ _ Hw'). split.
  - intros [(q & Hq & Hrow & _) | [_ Ha]]; [| exact Ha].
    exfalso. apply elem_of_app in Hq as [Hq | Hq].
    + eapply Hpre; eassumption.
    + destruct Hcase as [(r0 & Hw & Hr0 & _) | (_ & -> & _)].
      * pose proof (unique_row _ _ _ _ _ _ Hu Hw Hr0) as Hpost.
        rewrite Forall_forall in Hpost. eapply Hpost; eassumption.
      * by apply elem_of_nil in Hq.
  - intros Ha. right. split; assumption.
Qed.

(** X21: after a returning call without an invitation code by the
    persona that is logged in, [current_role] of the movement is the
    role of the returned membership: the role asked for after joining,
    and "left", not "visitor", after leaving. *)
Theorem current_role_after_toggle (w w' : world) (self : ident)
    (m : movement) (role : string) (r : membership) :
  active_persona w = self ->
  toggle_movement_membership w self m role None = Ok (r, w') ->
  current_role w' false m = mma_role r /\
  mma_role r = (if mma_active r then role else "left"%string).
Proof.
  intros Hself H. split.
  - unfold current_role.
    rewrite (toggle_keeps_login _ _ _ _ _ _ _ H), Hself.
    destruct (toggle_row_found _ _ _ _ _ _ H) as [i ->]. reflexivity.
  - destruct (toggle_members _ _ _ _ _ _ H)
      as (_ & pre & post & _ & _ & Hcase).
    destruct Hcase as [(r0 & _ & _ & -> & -> & _) | (_ & _ & -> & ->)];
      [| reflexivity].
    destruct (mma_active r0); reflexivity.
Qed.

Lemma current_role_after_toggle_witness :
  active_persona (with_active_persona 2 two_members) = 2 /\
  exists r w',
    toggle_movement_membership (with_active_persona 2 two_members) 2
      a_movement "member" None = Ok (r, w') /\
    current_role w' false a_movement = mma_role r /\
    mma_role r = (if mma_active r then "member" else "left")%string.
Proof.
  split; [reflexivity |].
  eexists. eexists. split; [vm_compute; reflexivity |].
  apply (current_role_after_toggle (with_active_persona 2 two_members) _ 2
           a_movement "member").
  - reflexivity.
  - vm_compute. reflexivity.
Defined.

(** X22: after a returning call without an invitation code, under the
    unique constraint, the movement authorizes the persona to read
    exactly when [BaseModel.authorize] does and the movement is public
    or the returned membership is active: leaving a private movement
    ends the right to read it. *)
Theorem authorize_read_after_toggle
    (base_authorize : movement -> string -> option ident -> bool)
    (w w' : world) (self : ident) (m : movement) (role : string)
    (r : membership) :
  unique_memberships w ->
  toggle_movement_membership w self m role None = Ok (r, w') ->
  authorize base_authorize w' m "read" (Some self) =
  base_authorize m "read" (Some self) && (negb (private m) || mma_active r).
Proof.
  intros Hu H. rewrite authorize_read_member. f_equal. f_equal.
  pose proof (toggle_active_after _ _ _ _ _ _ Hu H) as Hiff.
  destruct (mma_active r).
  - apply bool_decide_eq_true_2, Hiff. reflexivity.
  - apply bool_decide_eq_false_2. intros Ha. apply Hiff in Ha. discriminate.
Qed.

(** [BaseModel.authorize] that allows everything. *)
Definition allow_all : movement -> string -> option ident -> bool :=
  fun _ _ _ => true.

Definition private_with_two : world :=
  World [a_private_movement]
    [Membership 10 (Some 1) true "admin" None;
     Membership 10 (Some 2) true "member" None]
    ∅ ∅ ∅ (Memo ∅ ∅ ∅ ∅) 2 100 1000 [].

Lemma private_with_two_unique : unique_memberships private_with_two.
Proof.
  intros i j r r' Hi Hj Hm Hp _.
  destruct i as [| [| i]], j as [| [| j]]; try reflexivity;
    cbn in Hi, Hj; try discriminate;
    injection Hi as <-; injection Hj as <-; discriminate.
Qed.

Lemma authorize_read_after_toggle_witness :
  unique_memberships private_with_two /\
  exists r w',
    toggle_movement_membership private_with_two 2 a_private_movement
      "member" None = Ok (r, w') /\
    authorize allow_all w' a_private_movement "read" (Some 2) =
    allow_all a_private_movement "read"%string (Some 2) &&
    (negb (private a_private_movement) || mma_active r).
Proof.
  split; [exact private_with_two_unique |].
  eexists. eexists. split; [vm_compute; reflexivity |].
  apply (authorize_read_after_toggle allow_all private_with_two _ 2
           a_private_movement "member").
  - exact private_with_two_unique.
  - vm_compute. reflexivity.
Defined.

(** Having left the private movement, persona 2 may not read it. *)
Example authorize_read_after_leaving :
  (r ← toggle_movement_membership private_with_two 2 a_private_movement
         "member" None;
   Ok (authorize allow_all private_with_two a_private_movement "read" (Some 2),
       authorize allow_all r.2 a_private_movement "read" (Some 2)))
  = Ok (true, false).
Proof. vm_compute. reflexivity. Qed.

(** The movement with an id, when the identity is one. *)
Definition find_movement (w : world) (x : ident) : option movement :=
  snd <$> list_find (fun m => movement_id m = x) (movement_table w).

Section Frontpage.

(** The [blog_id] of an identity that is no movement. *)
Variable persona_blog : ident -> ident.

(** Body of the loop over [self.blogs_followed]. *)
Definition add_source (w : world) (self : ident) (source_idents : gset ident)
    (source : ident) : gset ident :=
  match find_movement w source with
  | Some m =>
      let source_idents :=
        if is_active_member w false m (Some self)
        then {[mindspace_id m]} ∪ source_idents
        else source_idents in
      {[blog_id m]} ∪ source_idents
  | None => {[persona_blog source]} ∪ source_idents
  end.

(** The body of [frontpage_sources(self)], which [@cache.memoize]
    wraps. *)
Definition frontpage_sources_of (w : world) (self : ident) : gset ident :=
  foldl (add_source w self) ∅ (followed w self).

Lemma add_source_mono (w : world) (self : ident) (acc : gset ident)
    (source : ident) :
  acc ⊆ add_source w self acc source.
Proof.
  unfold add_source. destruct (find_movement w source) as [m |];
    [destruct (is_active_member w false m (Some self)) |]; set_solver.
Qed.

Lemma foldl_add_source_mono (w : world) (self : ident) (l : list ident)
    (acc : gset ident) :
  acc ⊆ foldl (add_source w self) acc l.
Proof.
  revert acc. induction l as [| x l IH]; intros acc; simpl; [reflexivity |].
  etrans; [apply add_source_mono | apply IH].
Qed.

Lemma foldl_add_source_elem (w : world) (self : ident) (l : list ident)
    (acc : gset ident) (source : ident) :
  source ∈ l ->
  add_source w self ∅ source ⊆ foldl (add_source w self) acc l.
Proof.
  revert acc. induction l as [| x l IH]; intros acc Hin; simpl.
  - by apply elem_of_nil in Hin.
  - apply elem_of_cons in Hin as [<- | Hin]; [| apply IH, Hin].
    etrans; [| apply foldl_add_source_mono].
    unfold add_source. destruct (find_movement w source) as [m |];
      [destruct (is_active_member w false m (Some self)) |]; set_solver.
Qed.

(** X23: after joining a movement of the movement table by a call
    without an invitation code, the memoized frontpage sources of the
    persona are deleted, and the sources computed anew hold the blog and
    the mindspace of the movement. *)
Theorem frontpage_sources_after_joining (w w' : world) (self : ident)
    (m : movement) (role : string) (r : membership) :
  find_movement w (movement_id m) = Some m ->
  toggle_movement_membership w self m role None = Ok (r, w') ->
  mma_active r = true ->
  frontpage_sources_memo (cache w') !! self = None /\
  blog_id m ∈ frontpage_sources_of w' self /\
  mindspace_id m ∈ frontpage_sources_of w' self.
Proof.
  intros Hmov H Hact.
  destruct (toggle_resets_caches _ _ _ _ _ _ _ H) as (_ & _ & _ & Hmemo).
  split; [exact Hmemo |].
  assert (Hmem : active_member w' (movement_id m) self).
  { destruct (toggle_members _ _ _ _ _ _ H)
      as ([Hm Hp] & pre & post & _ & Hw' & _).
    exists r. rewrite Hw'. split; [set_solver | auto]. }
  destruct (toggle_world _ _ _ _ _ _ H) as [f Hw'].
  assert (Hfol : movement_id m ∈ followed w' self).
  { rewrite Hw', Hact.
    destruct (follow_when_joining_followed w self m true) as [Hfol _].
    exact (Hfol eq_refl). }
  assert (Htab : movement_table w' = movement_table w).
  { rewrite Hw'. cbn [movement_table upd_cache upd_members].
    unfold follow_when_joining, toggle_following.
    destruct (_ && _); [| reflexivity].
    destruct (remove_first _ _); reflexivity. }
  assert (Hsrc : {[blog_id m; mindspace_id m]} ⊆
                 add_source w' self ∅ (movement_id m)).
  { unfold add_source, find_movement. rewrite Htab.
    unfold find_movement in Hmov. rewrite Hmov.
    unfold is_active_member. rewrite bool_decide_eq_true_2 by exact Hmem.
    set_solver. }
  pose proof (foldl_add_source_elem w' self _ ∅ _ Hfol) as Hsub.
  unfold frontpage_sources_of. set_solver.
Qed.

End Frontpage.

Lemma frontpage_sources_after_joining_witness :
  find_movement before_joining (movement_id a_movement) = Some a_movement /\
  exists r w',
    toggle_movement_membership before_joining 2 a_movement "member" None
      = Ok (r, w') /\
    mma_active r = true /\
    frontpage_sources_memo (cache w') !! 2 = None /\
    blog_id a_movement ∈ frontpage_sources_of (fun x => x) w' 2 /\
    mindspace_id a_movement ∈ frontpage_sources_of (fun x => x) w' 2.
Proof.
  split; [reflexivity |].
  eexists. eexists. split; [vm_compute; reflexivity |].
  split; [reflexivity |].
  eapply (frontpage_sources_after_joining (fun x => x) before_joining _ 2
            a_movement "member").
  - reflexivity.
  - vm_compute. reflexivity.
  - reflexivity.
Defined.

(** *** Ordered queries: [Persona.movements] and [recent_thoughts] *)

Section Ordered.

Context {A : Type} (le : A -> A -> bool).

Hypothesis le_total : forall x y, le x y = true \/ le y x = true.

(** Insertion keeps a list ordered. *)
Fixpoint insert_ordered (x : A) (l : list A) : list A :=
  match l with
  | [] => [x]
  | y :: l' => if le x y then x :: l else y :: insert_ordered x l'
  end.

Lemma insert_ordered_perm (x : A) (l : list A) : insert_ordered x l ≡ₚ x :: l.
Proof.
  induction l as [| y l IH]; simpl; [reflexivity |].
  destruct (le x y); [reflexivity |]. rewrite IH. apply Permutation_swap.
Qed.

Lemma insert_ordered_hd (x y : A) (l : list A) :
  le y x = true -> HdRel (fun a b => le a b = true) y l ->
  HdRel (fun a b => le a b = true) y (insert_ordered x l).
Proof.
  intros Hyx Hl. destruct l as [| z l]; simpl; [constructor; exact Hyx |].
  destruct (le x z); constructor; [exact Hyx |].
  inversion Hl; assumption.
Qed.

Lemma insert_ordered_sorted (x : A) (l : list A) :
  Sorted (fun a b => le a b = true) l ->
  Sorted (fun a b => le a b = true) (insert_ordered x l).
Proof.
  induction 1 as [| y l Hl IH Hhd]; simpl; [repeat constructor |].
  destruct (le x y) eqn:E.
  - constructor; [constructor; assumption | constructor; exact E].
  - constructor; [exact IH |]. apply insert_ordered_hd; [| exact Hhd].
    destruct (le_total x y) as [H | H]; [congruence | exact H].
Qed.

Lemma foldr_insert_ordered (l : list A) :
  foldr insert_ordered [] l ≡ₚ l /\
  Sorted (fun a b => le a b = true) (foldr insert_ordered [] l).
Proof.
  induction l as [| x l [IHp IHs]]; simpl; [split; constructor |]. split.
  - rewrite insert_ordered_perm, IHp. reflexivity.
  - apply insert_ordered_sorted, IHs.
Qed.

End Ordered.

Lemma Sorted_map {A B : Type} (f : A -> B) (R : A -> A -> Prop)
    (R' : B -> B -> Prop) (l : list A) :
  (forall a b, R a b -> R' (f a) (f b)) ->
  Sorted R l -> Sorted R' (map f l).
Proof.
  intros HR. induction 1 as [| a l Hl IH Hhd]; simpl; constructor.
  - exact IH.
  - destruct Hhd; simpl; constructor. apply HR. assumption.
Qed.

Lemma insert_by_username_ordered (m : movement) (l : list movement) :
  insert_by_username m l =
  insert_ordered (fun a b => String.leb (username a) (username b)) m l.
Proof.
  induction l as [| m' l IH]; simpl; [reflexivity |].
  rewrite IH. reflexivity.
Qed.

Lemma order_by_username_ordered (l : list movement) :
  order_by_username l ≡ₚ l /\
  Sorted (fun a b => String.leb (username a) (username b) = true)
         (order_by_username l).
Proof.
  assert (E : order_by_username l =
              foldr (insert_ordered
                       (fun a b => String.leb (username a) (username b)))
                    [] l).
  { unfold order_by_username. induction l as [| m l IH]; simpl; [reflexivity |].
    rewrite IH. apply insert_by_username_ordered. }
  rewrite E.
  apply (foldr_insert_ordered
           (fun a b => String.leb (username a) (username b))).
  intros x y. apply String.leb_total.
Qed.

(** X24: the query of [Persona.movements] lists the movements in which
    the persona has an active membership, each movement of the table
    once, ordered by username. *)
Theorem movements_of_ordered (w : world) (a : ident) :
  Sorted (fun x y => String.leb x.2 y.2 = true) (movements_of w a) /\
  movements_of w a ≡ₚ
    map (fun m => (movement_id m, username m))
        (filter (fun m => active_member w (movement_id m) a)
                (movement_table w)) /\
  (forall i n,
     (i, n) ∈ movements_of w a <->
     exists m, m ∈ movement_table w /\ movement_id m = i /\ username m = n /\
               active_member w i a).
Proof.
  unfold movements_of.
  set (l := filter (fun m => active_member w (movement_id m) a)
              (movement_table w)).
  destruct (order_by_username_ordered l) as [Hperm Hsorted].
  assert (Hp : map (fun m => (movement_id m, username m)) (order_by_username l)
               ≡ₚ map (fun m => (movement_id m, username m)) l)
    by (rewrite Hperm; reflexivity).
  split_and!.
  - eapply Sorted_map; [| exact Hsorted]. intros x y H. exact H.
  - exact Hp.
  - intros i n. rewrite Hp, list_elem_of_fmap. subst l. split.
    + intros (m & [= -> ->] & Hm). apply list_elem_of_filter in Hm as [Ha Hm].
      exists m. auto.
    + intros (m & Hm & <- & <- & Ha). exists m. split; [reflexivity |].
      apply list_elem_of_filter. auto.
Qed.

(** The rows [recent_thoughts] selects: the thought lies in a mindset
    whose author is a movement that is not private. *)
Definition in_public_movement (w : world) (th : thought) : bool :=
  match thought_mindset th with
  | Some ms =>
      match mindsets w !! ms with
      | Some k =>
          match find_movement w (mindset_author k) with
          | Some m => negb (private m)
          | None => false
          end
      | None => false
      end
  | None => false
  end.

(** [filter_by(state=0)], [filter_by(kind="thought")] and the joins. *)
Definition recent_row (w : world) (th : thought) : bool :=
  bool_decide (thought_state th = 0%Z) &&
  bool_decide (thought_kind th = "thought"%string) &&
  in_public_movement w th.

(** [order_by(Thought.created.desc())] *)
Definition newer (x y : ident * thought) : bool :=
  (created y.2 <=? created x.2)%Z.

(** The query of [recent_thoughts] and [rv = [t.id for t in res]]; the
    memoization around it is left out. *)
Definition recent_thoughts (w : world) : list ident :=
  map fst
    (take 10
       (foldr (insert_ordered newer) []
          (filter (fun kv => recent_row w kv.2 = true)
                  (map_to_list (thoughts w))))).

Lemma Sorted_newer_app (l1 l2 : list (ident * thought)) :
  Sorted (fun a b => newer a b = true) (l1 ++ l2) ->
  forall x y, x ∈ l1 -> y ∈ l2 -> (created y.2 <= created x.2)%Z.
Proof.
  intros Hs. apply Sorted_StronglySorted in Hs.
  - induction l1 as [| z l1 IH]; intros x y Hx Hy.
    + by apply elem_of_nil in Hx.
    + simpl in Hs. apply StronglySorted_inv in Hs as [Hs Hall].
      apply elem_of_cons in Hx as [-> | Hx]; [| apply IH; assumption].
      rewrite Forall_forall in Hall.
      assert (Hin : y ∈ l1 ++ l2) by set_solver.
      apply Hall in Hin. unfold newer in Hin. lia.
  - intros a b c Hab Hbc. unfold newer in *. lia.
Qed.

(** X25: [recent_thoughts] gives at most ten ids, none twice, newest
    first; each is a published thought of kind "thought" in a mindset of
    a public movement, and no such thought left out is newer than one
    that is listed. *)
Theorem recent_thoughts_newest (w : world) :
  length (recent_thoughts w) <= 10 /\
  NoDup (recent_thoughts w) /\
  (forall t, t ∈ recent_thoughts w ->
     exists th, thoughts w !! t = Some th /\
                thought_state th = 0%Z /\
                thought_kind th = "thought"%string /\
                in_public_movement w th = true) /\
  (forall i j t t' th th',
     recent_thoughts w !! i = Some t -> recent_thoughts w !! j = Some t' ->
     i <= j ->
     thoughts w !! t = Some th -> thoughts w !! t' = Some th' ->
     (created th' <= created th)%Z) /\
  (forall t t' th th',
     t ∈ recent_thoughts w -> thoughts w !! t = Some th ->
     thoughts w !! t' = Some th' -> recent_row w th' = true ->
     t' ∉ recent_thoughts w ->
     (created th' <= created th)%Z).
Proof.
  unfold recent_thoughts.
  set (rows := filter (fun kv => recent_row w kv.2 = true)
                 (map_to_list (thoughts w))).
  destruct (foldr_insert_ordered newer
              ltac:(intros x y; unfold newer;
                    destruct (Z.le_ge_cases (created y.2) (created x.2));
                    [left | right]; apply Z.leb_le; assumption) rows)
    as [Hperm Hsorted].
  set (sorted := foldr (insert_ordered newer) [] rows) in *.
  assert (Hrows : forall kv, kv ∈ sorted <->
                    thoughts w !! kv.1 = Some kv.2 /\
                    recent_row w kv.2 = true).
  { intros [t th]. rewrite Hperm. subst rows.
    rewrite list_elem_of_filter, elem_of_map_to_list. simpl. tauto. }
  assert (Hnd : NoDup (map fst sorted)).
  { rewrite Hperm. subst rows.
    eapply sublist_NoDup; [apply (NoDup_fst_map_to_list (thoughts w)) |].
    apply fmap_sublist, sublist_filter. }
  assert (Htake : forall kv, kv ∈ take 10 sorted -> kv ∈ sorted).
  { intros kv Hkv. rewrite <- (take_drop 10 sorted). set_solver. }
  split_and!.
  - rewrite length_map, length_take. lia.
  - rewrite <- (take_drop 10 sorted), map_app in Hnd.
    apply NoDup_app in Hnd as [Hnd _]. exact Hnd.
  - intros t Ht. apply list_elem_of_fmap in Ht as ([t0 th] & -> & Hkv).
    apply Htake, Hrows in Hkv as [Hth Hrow]. simpl in *.
    exists th. unfold recent_row in Hrow.
    apply andb_true_iff in Hrow as [Hrow Hpub].
    apply andb_true_iff in Hrow as [Hst Hk].
    apply bool_decide_eq_true_1 in Hst, Hk. auto.
  - intros i j t t' th th' Hi Hj Hij Hth Hth'.
    rewrite list_lookup_fmap in Hi, Hj.
    destruct (take 10 sorted !! i) as [[t0 th0] |] eqn:Ei; [| discriminate].
    destruct (take 10 sorted !! j) as [[t1 th1] |] eqn:Ej; [| discriminate].
    injection Hi as ->. injection Hj as ->.
    assert (H0 : thoughts w !! t = Some th0).
    { apply (Hrows (t, th0)), Htake. eapply list_elem_of_lookup_2, Ei. }
    assert (H1 : thoughts w !! t' = Some th1).
    { apply (Hrows (t', th1)), Htake. eapply list_elem_of_lookup_2, Ej. }
    assert (th0 = th) by congruence. assert (th1 = th') by congruence.
    subst th0 th1.
    destruct (decide (i = j)) as [-> | Hne].
    { assert ((t, th) = (t', th')) by congruence.
      assert (th = th') by congruence. subst th'. lia. }
    apply lookup_take_Some in Ei as [Ei _].
    apply lookup_take_Some in Ej as [Ej _].
    assert (Hin : (t', th') ∈ drop (S i) sorted).
    { apply (list_elem_of_lookup_2 _ (j - S i)). rewrite lookup_drop.
      replace (S i + (j - S i)) with j by lia. exact Ej. }
    assert (Hs : Sorted (fun a b => newer a b = true)
                   ((take i sorted ++ [(t, th)]) ++ drop (S i) sorted)).
    { rewrite <- app_assoc. cbn [app].
      rewrite take_drop_middle by exact Ei. exact Hsorted. }
    apply (Sorted_newer_app _ _ Hs (t, th) (t', th')); [set_solver | exact Hin].
  - intros t t' th th' Ht Hth Hth' Hrow Hout.
    apply list_elem_of_fmap in Ht as ([t0 th0] & -> & Hkv).
    assert (th0 = th).
    { apply Htake, Hrows in Hkv as [H0 _]. simpl in *. congruence. }
    subst th0.
    assert (Hin : (t', th') ∈ sorted) by (apply Hrows; auto).
    rewrite <- (take_drop 10 sorted) in Hin, Hsorted.
    apply elem_of_app in Hin as [Hin | Hin].
    + exfalso. apply Hout. apply list_elem_of_fmap.
      exists (t', th'). split; [reflexivity | exact Hin].
    + apply (Sorted_newer_app _ _ Hsorted (t0, th) (t', th')); assumption.
Qed.

(** *** [Persona.movements] and the login *)







End Identity.
